(** * GITRIS deck editor: the tetromino placement engine of [deckmain.tsx]

    A shallow embedding of the placement logic of the deck screen
    (src/app/deck/deckmain.tsx): piece shapes and pivots, right-angle
    rotation, the collision test, the drop-position adjustment, the
    per-piece score details, the grid built from the contribution feed,
    and the handlers that place, move, rotate and delete pieces.

    Conventions.
    - JavaScript numbers that hold integers (grid coordinates, counts,
      levels, scores, ids, angles) are [Z]; the half-integer pivots are
      exact rationals [Q]. The numbers of the source are binary64
      doubles, whose arithmetic is exact on integers up to 2^53 and on
      halves up to 2^52; this covers every value a placed piece holds.
      A drop coordinate is an argument of the handlers and can be any
      double: the drop-position adjustment is therefore given a second
      time with the rounding of doubles written out
      ([getAdjustedDropPosition_double]), and the statements about
      requested coordinates or arbitrary shapes carry the bound under
      which the exact form is the computation of the source.
    - Arrays are lists; [grid[y][x]] is a lookup in a list of rows, and an
      assignment to an index is a list update.
    - [Date.now()] is an input of the operation that reads it.
    - React state is threaded explicitly: a handler maps the current
      piece list to the next one, and a user action or a completed fetch
      runs to completion before the next one starts. The messages, the
      drag bookkeeping and the [loading] and [error] flags are not part of
      the state modelled here. *)

From Stdlib Require Import ZArith QArith Qround Lia.
From stdpp Require Import base tactics option numbers list strings.

#[local] Open Scope Z_scope.

(** ** Catalog *)

Inductive TetrominoType : Set := I_ | J_ | L_ | O_ | S_ | T_ | Z_.

Definition Point : Type := (Z * Z)%type.

Definition TETROMINO_SHAPES (type : TetrominoType) : list Point :=
  match type with
  | I_ => [(0, 0); (1, 0); (2, 0); (3, 0)]
  | J_ => [(0, 0); (0, 1); (1, 1); (2, 1)]
  | L_ => [(2, 0); (0, 1); (1, 1); (2, 1)]
  | O_ => [(0, 0); (1, 0); (0, 1); (1, 1)]
  | S_ => [(1, 0); (2, 0); (0, 1); (1, 1)]
  | T_ => [(1, 0); (0, 1); (1, 1); (2, 1)]
  | Z_ => [(0, 0); (1, 0); (1, 1); (2, 1)]
  end.

Definition TETROMINO_PIVOTS (type : TetrominoType) : Q * Q :=
  match type with
  | I_ => (3 # 2, 1 # 2)%Q
  | O_ => (1 # 2, 1 # 2)%Q
  | J_ | L_ | S_ | T_ | Z_ => (1 # 1, 1 # 1)%Q
  end.

Definition GRID_WIDTH : Z := 8.
Definition GRID_HEIGHT : Z := 7.

(** ** Helper functions *)

Definition getContributionLevel (count : Z) : Z :=
  if 20 <? count then 5
  else if 10 <? count then 4
  else if 5 <? count then 3
  else if 0 <? count then 2
  else if 0 <=? count then 1
  else 0.

Definition getScoreFromContributionLevel (level : Z) : Z := level * 100.

(** [Math.round] on a rational: the nearest integer, halves going up. *)
Definition js_round (q : Q) : Z := Qfloor (q + (1 # 2)).

(** [Math.round(Math.cos(angle * PI / 180))] and the same for the sine.
    The table is exact at the four right angles, the only angles the
    component ever stores (a rotation starts at 0 and advances by
    [(rotation + 90) % 360]); at any other angle the source rounds a
    floating-point cosine, which is outside this model. *)
Definition round_cos (angle : Z) : Z :=
  match angle with
  | 0 => 1
  | 90 => 0
  | 180 => -1
  | 270 => 0
  | _ => 0
  end.

Definition round_sin (angle : Z) : Z :=
  match angle with
  | 0 => 0
  | 90 => 1
  | 180 => 0
  | 270 => -1
  | _ => 0
  end.

(** The rotation in exact rational arithmetic. About a pivot of the
    catalog and on integer points up to 2^50 in magnitude (the catalog
    shapes have coordinates 0 to 3) every intermediate value is a half
    of magnitude below 2^52, which the doubles of the source represent
    and combine without rounding. *)
Definition rotateShape (shape : list Point) (pivot : Q * Q) (angle : Z)
  : list Point :=
  let cos := inject_Z (round_cos angle) in
  let sin := inject_Z (round_sin angle) in
  let '(px, py) := pivot in
  map (fun '(x, y) =>
         let translatedX := (inject_Z x - px)%Q in
         let translatedY := (inject_Z y - py)%Q in
         let rotatedX := (translatedX * cos - translatedY * sin)%Q in
         let rotatedY := (translatedX * sin + translatedY * cos)%Q in
         (js_round (rotatedX + px), js_round (rotatedY + py)))
      shape.

(** ** Pieces *)

Record BlockDetail : Type := mkBlock {
  b_x : Z;
  b_y : Z;
  b_level : Z;
  b_score : Z;
  b_colorIndex : Z
}.

Record Tetromino : Type := mkTetromino {
  p_id : Z;
  p_type : TetrominoType;
  p_x : Z;
  p_y : Z;
  p_rotation : Z;
  p_absolutePositions : list Point;
  p_scorePotential : Z;
  p_blockDetails : list BlockDetail
}.

Definition out_of_grid (c : Point) : bool :=
  let '(x, y) := c in
  (x <? 0) || (GRID_WIDTH <=? x) || (y <? 0) || (GRID_HEIGHT <=? y).

Definition same_cell (c d : Point) : bool :=
  (fst c =? fst d) && (snd c =? snd d).

(** [currentTetromino && placed.id === currentTetromino.id]: the callers
    always pass an object; its [id] is [null] for a piece that is not
    placed yet, hence the option. *)
Definition is_current (currentId : option Z) (placed : Tetromino) : bool :=
  match currentId with
  | Some i => p_id placed =? i
  | None => false
  end.

Definition checkCollision (cellsToCheck : list Point) (currentId : option Z)
    (placedTetrominos : list Tetromino) : bool :=
  existsb (fun c =>
             out_of_grid c
             || existsb (fun placed =>
                           negb (is_current currentId placed)
                           && existsb (same_cell c)
                                (p_absolutePositions placed))
                  placedTetrominos)
          cellsToCheck.

(** ** The contribution grid *)

Record Contribution : Type := mkContribution {
  contrib_count : Z;
  contrib_date : string
}.

Record Cell : Type := mkCell {
  c_count : Z;
  c_level : Z;
  c_date : option string
}.

(** [grid[y][x]]: a list of rows, each a list of cells. *)
Abbreviation Grid := (list (list Cell)).

(** The object every cell starts as: [{ count: 0, level: 0 }]. *)
Definition defaultCell : Cell := mkCell 0 0 None.

(** [grid[y][x] = cell] on rows that exist. *)
Definition setCell (grid : Grid) (x y : Z) (cell : Cell) : Grid :=
  alter (fun row => <[Z.to_nat x := cell]> row) (Z.to_nat y) grid.

(** The body of the loop of [transformContributionsToGrid] for index [i]:
    [contributions?.[i]] is [undefined] past the end of the array. *)
Definition loadStep (contributions : list Contribution) (grid : Grid) (i : Z)
  : Grid :=
  let contribution := contributions !! Z.to_nat i in
  let x := i / GRID_HEIGHT in
  let y := Z.rem i GRID_HEIGHT in
  match contribution with
  | Some contribution =>
      if (y <? GRID_HEIGHT) && (x <? GRID_WIDTH) then
        let count := contrib_count contribution in
        let level := getContributionLevel count in
        setCell grid x y (mkCell count level (Some (contrib_date contribution)))
      else grid
  | None => grid
  end.

Definition transformContributionsToGrid (contributions : list Contribution)
  : Grid :=
  let grid :=
    replicate (Z.to_nat GRID_HEIGHT)
      (replicate (Z.to_nat GRID_WIDTH) defaultCell) in
  let totalCells := GRID_WIDTH * GRID_HEIGHT in
  fold_left (loadStep contributions) (seqZ 0 totalCells) grid.

(** ** Per-piece details *)

Record Details : Type := mkDetails {
  d_absolutePositions : list Point;
  d_scorePotential : Z;
  d_blockDetails : list BlockDetail
}.

(** The level read for one absolute cell: the guarded
    [contributionGrid[ay][ax].level], 0 when any guard fails. *)
Definition levelAt (contributionGrid : Grid) (ax ay : Z) : Z :=
  if (0 <=? ay) && (ay <? GRID_HEIGHT) && (0 <=? ax) && (ax <? GRID_WIDTH)
     && (0 <? Z.of_nat (length contributionGrid))
  then match contributionGrid !! Z.to_nat ay with
       | Some row =>
           match row !! Z.to_nat ax with
           | Some cell => c_level cell
           | None => 0
           end
       | None => 0
       end
  else 0.

Definition blockAt (contributionGrid : Grid) (a : Point) : BlockDetail :=
  let '(ax, ay) := a in
  let level := levelAt contributionGrid ax ay in
  let score := getScoreFromContributionLevel level in
  mkBlock ax ay level score (if 0 <? level then level - 1 else -1).

Definition calculateTetrominoDetails (contributionGrid : Grid)
    (type : option TetrominoType) (currentX currentY currentRotation : Z)
  : Details :=
  match type with
  | None => mkDetails [] 0 []
  | Some type =>
      let relativeShape :=
        rotateShape (TETROMINO_SHAPES type) (TETROMINO_PIVOTS type)
          currentRotation in
      let absolutePositions :=
        map (fun '(rx, ry) => (currentX + rx, currentY + ry)) relativeShape in
      let '(scorePotential, blockDetails) :=
        fold_left
          (fun '(scorePotential, blockDetails) a =>
             let block := blockAt contributionGrid a in
             (scorePotential + b_score block, blockDetails ++ [block]))
          absolutePositions (0, []) in
      mkDetails absolutePositions scorePotential blockDetails
  end.

(** The total shown on screen: the [reduce] over the placed pieces. *)
Definition potentialScore (placedTetrominos : list Tetromino) : Z :=
  fold_left (fun sum piece => sum + p_scorePotential piece)
    placedTetrominos 0.

(** The effect that runs when the grid changes: every piece gets the
    details recomputed from its own type, anchor and rotation. *)
Definition refreshTetrominos (loading : bool) (contributionGrid : Grid)
    (placedTetrominos : list Tetromino) : list Tetromino :=
  if negb loading
     && (0 <? Z.of_nat (length contributionGrid))
     && (0 <? Z.of_nat (length placedTetrominos))
  then
    map (fun t =>
           let d :=
             calculateTetrominoDetails contributionGrid (Some (p_type t))
               (p_x t) (p_y t) (p_rotation t) in
           mkTetromino (p_id t) (p_type t) (p_x t) (p_y t) (p_rotation t)
             (d_absolutePositions d) (d_scorePotential d)
             (d_blockDetails d))
        placedTetrominos
  else placedTetrominos.

(** ** Drop-position adjustment *)

(** [Math.min(...xs)] and [Math.max(...xs)] on a non-empty array (a shape
    always has four points; the empty case is never reached). *)
Definition list_min (xs : list Z) : Z :=
  match xs with
  | [] => 0
  | a :: r => fold_left Z.min r a
  end.

Definition list_max (xs : list Z) : Z :=
  match xs with
  | [] => 0
  | a :: r => fold_left Z.max r a
  end.

(** The adjustment on exact integers, as the handlers below use it. It is
    the computation of the source for requested coordinates up to
    2^53 - 16 in magnitude ([getAdjustedDropPosition_double_exact]); the
    form for doubles of any size follows it. *)
Definition getAdjustedDropPosition (type : TetrominoType)
    (rotation dropX dropY : Z) : Z * Z :=
  let relativeShape :=
    rotateShape (TETROMINO_SHAPES type) (TETROMINO_PIVOTS type) rotation in
  let minX := list_min (map fst relativeShape) in
  let maxX := list_max (map fst relativeShape) in
  let minY := list_min (map snd relativeShape) in
  let maxY := list_max (map snd relativeShape) in
  let adjustedX := dropX in
  let adjustedY := dropY in
  let leftOverflow := - (adjustedX + minX) in
  let rightOverflow := adjustedX + maxX - (GRID_WIDTH - 1) in
  let topOverflow := - (adjustedY + minY) in
  let bottomOverflow := adjustedY + maxY - (GRID_HEIGHT - 1) in
  let adjustedX :=
    if 0 <? leftOverflow then adjustedX + leftOverflow else adjustedX in
  let adjustedX :=
    if 0 <? rightOverflow then adjustedX - rightOverflow else adjustedX in
  let adjustedY :=
    if 0 <? topOverflow then adjustedY + topOverflow else adjustedY in
  let adjustedY :=
    if 0 <? bottomOverflow then adjustedY - bottomOverflow else adjustedY in
  (adjustedX, adjustedY).

(** *** The adjustment in double arithmetic *)

(** A sum or difference of two doubles is the exact result rounded to the
    nearest double, ties going to the even significand. [roundDouble] is
    that rounding on an integer: integers below 2^53 in magnitude are
    doubles; from there on the doubles are the multiples of
    [2 ^ (log2 |z| - 52)]. (Overflow to infinity, from 2^1024 on, is not
    modelled.) *)
Definition roundDouble (z : Z) : Z :=
  let a := Z.abs z in
  if a <? 2 ^ 53 then z
  else
    let ulp := 2 ^ (Z.log2 a - 52) in
    let q := a / ulp in
    let r := a `mod` ulp in
    let q :=
      if 2 * r <? ulp then q
      else if ulp <? 2 * r then q + 1
      else if Z.even q then q else q + 1 in
    Z.sgn z * (q * ulp).

(** [a + b] and [a - b] on doubles that hold integers. *)
Definition js_add (a b : Z) : Z := roundDouble (a + b).
Definition js_sub (a b : Z) : Z := roundDouble (a - b).

(** [getAdjustedDropPosition] with every addition and subtraction of the
    source rounded as the doubles round it; negation and the comparisons
    with 0 are exact. The arguments are doubles that hold integers. *)
Definition getAdjustedDropPosition_double (type : TetrominoType)
    (rotation dropX dropY : Z) : Z * Z :=
  let relativeShape :=
    rotateShape (TETROMINO_SHAPES type) (TETROMINO_PIVOTS type) rotation in
  let minX := list_min (map fst relativeShape) in
  let maxX := list_max (map fst relativeShape) in
  let minY := list_min (map snd relativeShape) in
  let maxY := list_max (map snd relativeShape) in
  let adjustedX := dropX in
  let adjustedY := dropY in
  let leftOverflow := - (js_add adjustedX minX) in
  let rightOverflow := js_sub (js_add adjustedX maxX) (GRID_WIDTH - 1) in
  let topOverflow := - (js_add adjustedY minY) in
  let bottomOverflow := js_sub (js_add adjustedY maxY) (GRID_HEIGHT - 1) in
  let adjustedX :=
    if 0 <? leftOverflow then js_add adjustedX leftOverflow else adjustedX in
  let adjustedX :=
    if 0 <? rightOverflow then js_sub adjustedX rightOverflow else adjustedX in
  let adjustedY :=
    if 0 <? topOverflow then js_add adjustedY topOverflow else adjustedY in
  let adjustedY :=
    if 0 <? bottomOverflow then js_sub adjustedY bottomOverflow
    else adjustedY in
  (adjustedX, adjustedY).

(** ** Drop, rotate and delete handlers *)

(** [handlePlacement] inside [handleDrop]: [id] is [null] for a piece
    dragged from the palette; [now] is the value [Date.now()] returns if
    it is read ([id || Date.now()] reads it when [id] is [null] or 0). *)
Definition handlePlacement (contributionGrid : Grid)
    (placedTetrominos : list Tetromino) (type : TetrominoType)
    (rotation baseDropX baseDropY : Z) (id : option Z) (now : Z)
  : option Tetromino :=
  let pivot := TETROMINO_PIVOTS type in
  let centeredDropX := baseDropX - Qfloor (fst pivot) in
  let centeredDropY := baseDropY - Qfloor (snd pivot) in
  let '(adjustedX, adjustedY) :=
    getAdjustedDropPosition type rotation centeredDropX centeredDropY in
  let details :=
    calculateTetrominoDetails contributionGrid (Some type)
      adjustedX adjustedY rotation in
  if checkCollision (d_absolutePositions details) id placedTetrominos
  then None
  else
    Some (mkTetromino
            (match id with
             | Some i => if i =? 0 then now else i
             | None => now
             end)
            type adjustedX adjustedY rotation
            (d_absolutePositions details) (d_scorePotential details)
            (d_blockDetails details)).

(** [handleDrop], palette branch: a new piece at rotation 0. *)
Definition dropNew (contributionGrid : Grid)
    (placedTetrominos : list Tetromino) (selectedTetrominoType : TetrominoType)
    (dropGridX dropGridY now : Z) : list Tetromino :=
  match handlePlacement contributionGrid placedTetrominos
          selectedTetrominoType 0 dropGridX dropGridY None now with
  | Some newPiece => placedTetrominos ++ [newPiece]
  | None => placedTetrominos
  end.

(** [handleDrop], branch for a piece dragged from the grid. *)
Definition dropMove (contributionGrid : Grid)
    (placedTetrominos : list Tetromino) (draggedTetrominoId : Z)
    (dropGridX dropGridY now : Z) : list Tetromino :=
  match list_find (fun t => p_id t = draggedTetrominoId) placedTetrominos with
  | Some (_, tetrominoToMove) =>
      match handlePlacement contributionGrid placedTetrominos
              (p_type tetrominoToMove) (p_rotation tetrominoToMove)
              dropGridX dropGridY (Some draggedTetrominoId) now with
      | Some movedPiece =>
          map (fun p => if p_id p =? draggedTetrominoId then movedPiece else p)
            placedTetrominos
      | None => placedTetrominos
      end
  | None => placedTetrominos
  end.

Definition kickTranslations : list (Z * Z) :=
  [(0, 0); (-1, 0); (1, 0); (-2, 0); (2, 0)].

(** The body of the wall-kick loop for one offset: the adjusted anchor
    and the details there. *)
Definition kickCandidate (contributionGrid : Grid) (tetromino : Tetromino)
    (newRotation : Z) (d : Z * Z) : Z * Z * Details :=
  let '(dx, dy) := d in
  let testX := p_x tetromino + dx in
  let testY := p_y tetromino + dy in
  let '(adjustedX, adjustedY) :=
    getAdjustedDropPosition (p_type tetromino) newRotation testX testY in
  (adjustedX, adjustedY,
   calculateTetrominoDetails contributionGrid (Some (p_type tetromino))
     adjustedX adjustedY newRotation).

(** The [for (const [dx, dy] of kickTranslations)] loop, returning from
    the first offset that passes the collision test, and [prev] when the
    offsets are exhausted. *)
Fixpoint tryKicks (contributionGrid : Grid) (prev : list Tetromino)
    (tetrominoIndex : nat) (tetromino : Tetromino) (newRotation : Z)
    (kicks : list (Z * Z)) : list Tetromino :=
  match kicks with
  | [] => prev
  | d :: kicks' =>
      let '(adjustedX, adjustedY, details) :=
        kickCandidate contributionGrid tetromino newRotation d in
      if negb (checkCollision (d_absolutePositions details)
                 (Some (p_id tetromino)) prev)
      then
        <[tetrominoIndex :=
            mkTetromino (p_id tetromino) (p_type tetromino)
              adjustedX adjustedY newRotation
              (d_absolutePositions details) (d_scorePotential details)
              (d_blockDetails details)]> prev
      else
        tryKicks contributionGrid prev tetrominoIndex tetromino newRotation
          kicks'
  end.

Definition handleRotate (contributionGrid : Grid) (id : Z)
    (prev : list Tetromino) : list Tetromino :=
  match list_find (fun t => p_id t = id) prev with
  | None => prev
  | Some (tetrominoIndex, tetromino) =>
      let newRotation := Z.rem (p_rotation tetromino + 90) 360 in
      tryKicks contributionGrid prev tetrominoIndex tetromino newRotation
        kickTranslations
  end.

Definition handleDelete (id : Z) (prev : list Tetromino) : list Tetromino :=
  filter (fun t => p_id t ≠ id) prev.

(** ** The component state and its operations *)

Record State : Type := mkState {
  contributionGrid : Grid;
  placedTetrominos : list Tetromino
}.

(** [useState([])] for both. *)
Definition initialState : State := mkState [] [].

Inductive Op : Type :=
| Place (type : TetrominoType) (dropGridX dropGridY now : Z)
| Move (id : Z) (dropGridX dropGridY now : Z)
| Rotate (id : Z)
| Delete (id : Z)
| Refresh (data : list Contribution).

(** One user action or one completed fetch, run to completion.
    [Refresh data] is [fetchContributions] receiving [data]: an empty
    array raises inside the [try] and leaves the grid as it was; in both
    cases [loading] returns to [false] and the grid effect runs. *)
Definition step (s : State) (op : Op) : State :=
  let grid := contributionGrid s in
  let prev := placedTetrominos s in
  match op with
  | Place type dropGridX dropGridY now =>
      mkState grid (dropNew grid prev type dropGridX dropGridY now)
  | Move id dropGridX dropGridY now =>
      mkState grid (dropMove grid prev id dropGridX dropGridY now)
  | Rotate id => mkState grid (handleRotate grid id prev)
  | Delete id => mkState grid (handleDelete id prev)
  | Refresh data =>
      let grid' :=
        match data with
        | [] => grid
        | _ :: _ => transformContributionsToGrid data
        end in
      mkState grid' (refreshTetrominos false grid' prev)
  end.

Definition run (s : State) (ops : list Op) : State := fold_left step ops s.

(** ** Vocabulary of the properties *)

Definition right_angle (r : Z) : Prop := r = 0 ∨ r = 90 ∨ r = 180 ∨ r = 270.

(** The shape of a piece type turned by an angle, relative to the anchor. *)
Definition relativeShapeOf (type : TetrominoType) (rotation : Z) : list Point :=
  rotateShape (TETROMINO_SHAPES type) (TETROMINO_PIVOTS type) rotation.

Definition in_grid (c : Point) : Prop :=
  0 <= fst c < GRID_WIDTH ∧ 0 <= snd c < GRID_HEIGHT.

Definition sumZ (l : list Z) : Z := foldr Z.add 0 l.

(** The score of one grid cell as the score computation reads it. *)
Definition cellScore (grid : Grid) (c : Point) : Z :=
  getScoreFromContributionLevel (levelAt grid (fst c) (snd c)).

(** Width and height of the bounding box of a relative shape. *)
Definition boxWidth (shape : list Point) : Z :=
  list_max (map fst shape) - list_min (map fst shape) + 1.

Definition boxHeight (shape : list Point) : Z :=
  list_max (map snd shape) - list_min (map snd shape) + 1.

(** What the engine relies on for each of the 28 turned shapes, as a
    check that computes. *)
Definition shape_okb (shape : list Point) : bool :=
  (length shape =? 4)%nat
  && bool_decide (NoDup shape)
  && (boxWidth shape <=? 4) && (boxHeight shape <=? 4).

Definition absolutePositionsOf (type : TetrominoType) (x y rotation : Z)
  : list Point :=
  map (fun '(rx, ry) => (x + rx, y + ry)) (relativeShapeOf type rotation).

(** Some cell of [cells] is a cell of a placed piece other than the
    current one. *)
Definition overlapsOther (cells : list Point) (currentId : option Z)
    (pieces : list Tetromino) : Prop :=
  ∃ p c, p ∈ pieces ∧ is_current currentId p = false
         ∧ c ∈ cells ∧ c ∈ p_absolutePositions p.

(** The piece the handlers build: the derived fields are functions of the
    grid, the type, the anchor and the rotation. *)
Definition pieceAt (grid : Grid) (id : Z) (type : TetrominoType)
    (x y rotation : Z) : Tetromino :=
  mkTetromino id type x y rotation
    (absolutePositionsOf type x y rotation)
    (sumZ (map (cellScore grid) (absolutePositionsOf type x y rotation)))
    (map (blockAt grid) (absolutePositionsOf type x y rotation)).

(** The anchor [handlePlacement] ends with for a requested drop cell. *)
Definition placementAnchor (type : TetrominoType)
    (rotation baseDropX baseDropY : Z) : Z * Z :=
  getAdjustedDropPosition type rotation
    (baseDropX - Qfloor (fst (TETROMINO_PIVOTS type)))
    (baseDropY - Qfloor (snd (TETROMINO_PIVOTS type))).

Definition placementId (id : option Z) (now : Z) : Z :=
  match id with
  | Some i => if i =? 0 then now else i
  | None => now
  end.

(** The anchor the wall-kick loop tests for one offset. *)
Definition kickAnchor (tetromino : Tetromino) (newRotation : Z) (d : Z * Z)
  : Z * Z :=
  getAdjustedDropPosition (p_type tetromino) newRotation
    (p_x tetromino + fst d) (p_y tetromino + snd d).

(** The cells the loop tests for one offset. *)
Definition kickCells (tetromino : Tetromino) (newRotation : Z) (d : Z * Z)
  : list Point :=
  absolutePositionsOf (p_type tetromino)
    (fst (kickAnchor tetromino newRotation d))
    (snd (kickAnchor tetromino newRotation d)) newRotation.

(** The piece the loop commits for one offset. *)
Definition kickedPiece (grid : Grid) (tetromino : Tetromino)
    (newRotation : Z) (d : Z * Z) : Tetromino :=
  pieceAt grid (p_id tetromino) (p_type tetromino)
    (fst (kickAnchor tetromino newRotation d))
    (snd (kickAnchor tetromino newRotation d)) newRotation.

(** A stored piece is what the handlers build from its own type, anchor
    and rotation on the current grid; its rotation is a right angle and
    its cells are inside the grid. *)
Definition piece_ok (grid : Grid) (p : Tetromino) : Prop :=
  right_angle (p_rotation p)
  ∧ p = pieceAt grid (p_id p) (p_type p) (p_x p) (p_y p) (p_rotation p)
  ∧ Forall in_grid (p_absolutePositions p).

Definition consistent (s : State) : Prop :=
  Forall (piece_ok (contributionGrid s)) (placedTetrominos s).

(** The clock value an operation reads is not the id of a placed piece.
    A drop from the palette always reads the clock; a move reads it only
    for a piece whose id is 0. *)
Definition op_fresh (s : State) (op : Op) : Prop :=
  match op with
  | Place _ _ _ now => now ∉ map p_id (placedTetrominos s)
  | Move id _ _ now => id = 0 → now ∉ map p_id (placedTetrominos s)
  | Rotate _ | Delete _ | Refresh _ => True
  end.

Fixpoint clock_fresh (s : State) (ops : list Op) : Prop :=
  match ops with
  | [] => True
  | op :: ops' => op_fresh s op ∧ clock_fresh (step s op) ops'
  end.

(** Pieces with different ids share no cell. *)
Definition separated (pieces : list Tetromino) : Prop :=
  ∀ p q, p ∈ pieces → q ∈ pieces → p_id p ≠ p_id q →
         ∀ c, c ∈ p_absolutePositions p → c ∉ p_absolutePositions q.

Definition distinct_and_apart (s : State) : Prop :=
  NoDup (map p_id (placedTetrominos s)) ∧ separated (placedTetrominos s).

Definition cells_ok (p : Tetromino) : Prop :=
  length (p_absolutePositions p) = 4%nat
  ∧ NoDup (p_absolutePositions p)
  ∧ ∀ x y, (x, y) ∈ p_absolutePositions p → 0 <= x < 8 ∧ 0 <= y < 7.

Definition pairwise_disjoint (pieces : list Tetromino) : Prop :=
  ∀ (i j : nat) (p q : Tetromino),
    i ≠ j → pieces !! i = Some p → pieces !! j = Some q →
    ∀ c, c ∈ p_absolutePositions p → c ∉ p_absolutePositions q.

Definition placement_invariant (pieces : list Tetromino) : Prop :=
  Forall cells_ok pieces ∧ pairwise_disjoint pieces.

(** The claim C1 as the specification words it, for one sequence of
    operations: the invariants hold after every operation of it. *)
Definition placement_invariant_along (ops : list Op) : Prop :=
  ∀ n : nat,
    placement_invariant (placedTetrominos (run initialState (take n ops))).

(** The claim C7 as the specification words it, for the adjustment the
    source computes: every requested anchor that is a double. *)
Definition adjusted_in_grid_as_specified : Prop :=
  ∀ (type : TetrominoType) (rotation dropX dropY : Z),
    right_angle rotation →
    roundDouble dropX = dropX → roundDouble dropY = dropY →
    boxWidth (relativeShapeOf type rotation) <= GRID_WIDTH →
    boxHeight (relativeShapeOf type rotation) <= GRID_HEIGHT →
    ∀ bx by_ : Z,
      list_min (map fst (relativeShapeOf type rotation)) <= bx
        <= list_max (map fst (relativeShapeOf type rotation)) →
      list_min (map snd (relativeShapeOf type rotation)) <= by_
        <= list_max (map snd (relativeShapeOf type rotation)) →
      0 <= fst (getAdjustedDropPosition_double type rotation dropX dropY) + bx
        < 8
      ∧ 0 <= snd (getAdjustedDropPosition_double type rotation dropX dropY)
               + by_ < 7.

(** [grid[y][x]], when the row and the column exist. *)
Definition cellAt (grid : Grid) (x y : Z) : option Cell :=
  grid !! Z.to_nat y ≫= (fun row => row !! Z.to_nat x).

(** The cell the loop stores for record [i], or the default. *)
Definition loadedCell (contributions : list Contribution) (i : Z) : Cell :=
  match contributions !! Z.to_nat i with
  | Some contribution =>
      mkCell (contrib_count contribution)
        (getContributionLevel (contrib_count contribution))
        (Some (contrib_date contribution))
  | None => mkCell 0 0 None
  end.

Definition grid_shape (grid : Grid) : Prop :=
  length grid = 7%nat ∧ Forall (fun row => length row = 8%nat) grid.

(** The claim C4 as the specification words it: cells past the last
    record hold count 0, no date, and the level of count 0. *)
Definition load_as_specified (contributions : list Contribution) : Prop :=
  ∀ i, 0 <= i < 56 →
    cellAt (transformContributionsToGrid contributions) (i / 7) (i `mod` 7)
    = Some (match contributions !! Z.to_nat i with
            | Some contribution =>
                mkCell (contrib_count contribution)
                  (getContributionLevel (contrib_count contribution))
                  (Some (contrib_date contribution))
            | None => mkCell 0 (getContributionLevel 0) None
            end).

Definition oneRecord : list Contribution := [mkContribution 3 "2025-01-01"].

Definition allZeroData : list Contribution :=
  replicate 56 (mkContribution 0 "2025-01-01").

(** An I piece, then an O piece below its right half, then a rotation of
    the I piece; the two drops read different clock values. *)
Definition sampleOps : list Op :=
  [Refresh allZeroData; Place I_ 1 0 1000; Place O_ 2 1 2000; Rotate 1000].

(** The same, with the clock returning 1000 at both drops. *)
Definition sameClockOps : list Op :=
  [Refresh allZeroData; Place I_ 1 0 1000; Place O_ 2 1 1000; Rotate 1000].

(** Closed decidable facts, by evaluation. *)
Ltac by_evaluation := apply (bool_decide_unpack _); vm_compute; exact Logic.I.

(** A loaded grid with an I piece on row 0 and an O piece below its right
    half. *)
Definition twoPieces : State :=
  run initialState [Refresh allZeroData; Place I_ 1 0 1000; Place O_ 2 1 2000].

(** Two I pieces on rows 0 and 1 and an O piece right of the second: every
    rotation candidate of the first I piece meets another piece. *)
Definition blockedState : State :=
  run initialState [Place I_ 1 0 1000; Place I_ 1 1 2000; Place O_ 4 1 3000].

(** ** Colours, rendering and export *)

Definition CELL_PX_SIZE : Z := 36.

Definition UI_darkBackground : string := "#151823".

Definition TETROMINO_COLORS (type : TetrominoType) : list string :=
  match type with
  | I_ => ["#5BE3B6"; "#50C69E"; "#43A987"; "#388C70"; "#2C6E58"]
  | O_ => ["#F2E530"; "#D5CA2B"; "#B8AE24"; "#989320"; "#7E7719"]
  | T_ => ["#F28707"; "#D57706"; "#B86706"; "#985706"; "#7E4606"]
  | S_ => ["#6EF230"; "#61D52B"; "#53B824"; "#469B20"; "#397E19"]
  | Z_ => ["#F23064"; "#D52858"; "#B8244C"; "#9B2040"; "#7E1934"]
  | J_ => ["#0066FF"; "#005AE2"; "#0050C5"; "#0043A8"; "#00378A"]
  | L_ => ["#B963F2"; "#A357D5"; "#8D4BB8"; "#763F9B"; "#60347E"]
  end.

(** [arr[i]] for an integer [i]: [undefined] below 0 and past the end. *)
Definition jsIndex {A : Type} (arr : list A) (i : Z) : option A :=
  if i <? 0 then None else arr !! Z.to_nat i.

(** [s || fallback] for a string that may be [undefined]: the empty
    string is falsy too. *)
Definition orString (s : option string) (fallback : string) : string :=
  match s with
  | Some s => if String.eqb s EmptyString then fallback else s
  | None => fallback
  end.

Definition getGrassColorFromLevel (level : Z) : string :=
  if level =? 0 then UI_darkBackground
  else orString (jsIndex (TETROMINO_COLORS S_) (level - 1)) UI_darkBackground.

(** The background of one block of a placed piece:
    [TETROMINO_COLORS[type][block.colorIndex] ?? darkBackground]. *)
Definition blockColor (type : TetrominoType) (block : BlockDetail) : string :=
  match jsIndex (TETROMINO_COLORS type) (b_colorIndex block) with
  | Some color => color
  | None => UI_darkBackground
  end.

(** The absolutely positioned box drawn for a placed piece: left, top,
    width and height in pixels, or nothing ([return null]). The
    [isFinite] tests of the source always pass on integers. *)
Definition renderBox (pos : list Point) : option (Z * Z * Z * Z) :=
  match pos with
  | [] => None
  | _ :: _ =>
      let xs := map fst pos in
      let ys := map snd pos in
      let minX := list_min xs in
      let minY := list_min ys in
      let widthPx := (list_max xs - minX + 1) * CELL_PX_SIZE in
      let heightPx := (list_max ys - minY + 1) * CELL_PX_SIZE in
      let leftPx := minX * CELL_PX_SIZE in
      let topPx := minY * CELL_PX_SIZE in
      if (widthPx <? 0) || (heightPx <? 0) then None
      else Some (leftPx, topPx, widthPx, heightPx)
  end.

(** The position of one block inside the box of its piece. *)
Definition blockOffset (pos : list Point) (block : BlockDetail) : Z * Z :=
  let minX := list_min (map fst pos) in
  let minY := list_min (map snd pos) in
  ((b_x block - minX) * CELL_PX_SIZE, (b_y block - minY) * CELL_PX_SIZE).

Record TetrominoPlacementPayload : Type := mkPayload {
  pl_type : TetrominoType;
  pl_rotation : Z;
  pl_startDate : string;
  pl_positions : list (Z * Z * Z);
  pl_scorePotential : Z
}.

(** The [tetrominosToSave] prop of the save button; [today] is the date
    string [new Date().toISOString().split("T")[0]] gives if it is
    evaluated. *)
Definition tetrominosToSave (contributionGrid : Grid) (today : string)
    (placedTetrominos : list Tetromino) : list TetrominoPlacementPayload :=
  map (fun t =>
         let startDate :=
           orString
             (cell ← (row ← jsIndex contributionGrid (p_y t);
                      jsIndex row (p_x t));
              c_date cell)
             today in
         let positions :=
           map (fun block => (b_x block, b_y block, b_score block))
             (p_blockDetails t) in
         mkPayload (p_type t) (p_rotation t) startDate positions
           (p_scorePotential t))
      placedTetrominos.

(** ** Drag state and events *)

Record UIState : Type := mkUI {
  ui_state : State;
  selectedTetrominoType : option TetrominoType;
  draggedTetrominoId : option Z;
  isDraggingNew : bool
}.

Definition initialUI : UIState := mkUI initialState None None false.

Definition type_eqb (a b : TetrominoType) : bool :=
  match a, b with
  | I_, I_ | J_, J_ | L_, L_ | O_, O_ | S_, S_ | T_, T_ | Z_, Z_ => true
  | _, _ => false
  end.

(** [draggable={!isPlaced}] of a palette entry. *)
Definition paletteDraggable (placedTetrominos : list Tetromino)
    (type : TetrominoType) : bool :=
  negb (existsb (fun p => type_eqb (p_type p) type) placedTetrominos).

Definition handlePaletteDragStart (u : UIState) (type : TetrominoType)
  : UIState :=
  mkUI (ui_state u) (Some type) None true.

Definition handlePlacedTetrominoDragStart (u : UIState) (id : Z) : UIState :=
  mkUI (ui_state u)
    (match list_find (fun t => p_id t = id) (placedTetrominos (ui_state u)) with
     | Some (_, t) => Some (p_type t)
     | None => None
     end)
    (Some id) false.

(** [handleDrop] once the drop cell is known. *)
Definition handleDrop (u : UIState) (dropGridX dropGridY now : Z) : UIState :=
  let grid := contributionGrid (ui_state u) in
  let placed := placedTetrominos (ui_state u) in
  match isDraggingNew u, selectedTetrominoType u with
  | true, Some type =>
      match handlePlacement grid placed type 0 dropGridX dropGridY None now with
      | Some newPiece =>
          mkUI (mkState grid (placed ++ [newPiece])) None
            (draggedTetrominoId u) (isDraggingNew u)
      | None => u
      end
  | _, _ =>
      match draggedTetrominoId u with
      | Some id =>
          match list_find (fun t => p_id t = id) placed with
          | Some (_, tetrominoToMove) =>
              match handlePlacement grid placed (p_type tetrominoToMove)
                      (p_rotation tetrominoToMove) dropGridX dropGridY
                      (Some id) now with
              | Some movedPiece =>
                  mkUI (mkState grid
                          (map (fun p => if p_id p =? id then movedPiece
                                         else p) placed))
                    (selectedTetrominoType u) None (isDraggingNew u)
              | None =>
                  mkUI (ui_state u) (selectedTetrominoType u) None
                    (isDraggingNew u)
              end
          | None =>
              mkUI (ui_state u) (selectedTetrominoType u) None
                (isDraggingNew u)
          end
      | None => u
      end
  end.

Inductive Event : Type :=
| PaletteDragStart (type : TetrominoType)
| PlacedDragStart (id : Z)
| DropAt (dropGridX dropGridY now : Z)
| ClickRotate (id : Z)
| ClickDelete (id : Z)
| Fetched (data : list Contribution).

(** One browser event. [onDragStart] of a palette entry runs
    [handlePaletteDragStart] whenever the event reaches it; the
    [draggable] attribute is not consulted by the handler. The rotate and
    delete buttons and a completed fetch act on the pieces and the grid
    only. *)
Definition uiStep (u : UIState) (e : Event) : UIState :=
  match e with
  | PaletteDragStart type => handlePaletteDragStart u type
  | PlacedDragStart id => handlePlacedTetrominoDragStart u id
  | DropAt dropGridX dropGridY now => handleDrop u dropGridX dropGridY now
  | ClickRotate id =>
      mkUI (step (ui_state u) (Rotate id)) (selectedTetrominoType u)
        (draggedTetrominoId u) (isDraggingNew u)
  | ClickDelete id =>
      mkUI (step (ui_state u) (Delete id)) (selectedTetrominoType u)
        (draggedTetrominoId u) (isDraggingNew u)
  | Fetched data =>
      mkUI (step (ui_state u) (Refresh data)) (selectedTetrominoType u)
        (draggedTetrominoId u) (isDraggingNew u)
  end.

Definition uiRun (u : UIState) (events : list Event) : UIState :=
  fold_left uiStep events u.

(** ** Vocabulary of the further properties *)

(** Integer points on which the rotation of the source is exact. *)
Definition small_point (c : Point) : Prop :=
  Z.abs (fst c) <= 2 ^ 50 ∧ Z.abs (snd c) <= 2 ^ 50.

(** The sum and the difference of the coordinates of a catalog pivot. *)
Definition pivotSum (type : TetrominoType) : Z :=
  match type with O_ => 1 | _ => 2 end.

Definition pivotDifference (type : TetrominoType) : Z :=
  match type with I_ => 1 | _ => 0 end.

(** The anchor [handlePlacement] ends with, in double arithmetic. *)
Definition placementAnchor_double (type : TetrominoType)
    (rotation baseDropX baseDropY : Z) : Z * Z :=
  getAdjustedDropPosition_double type rotation
    (js_sub baseDropX (Qfloor (fst (TETROMINO_PIVOTS type))))
    (js_sub baseDropY (Qfloor (snd (TETROMINO_PIVOTS type)))).

(** The pivot's coordinates have an integer sum [s] and an integer
    difference [d]: true of integer pivots and of pivots whose two
    coordinates are both halves. *)
Definition pivot_aligned (pivot : Q * Q) (s d : Z) : Prop :=
  (fst pivot + snd pivot == inject_Z s)%Q
  ∧ (fst pivot - snd pivot == inject_Z d)%Q.

(** A quarter, half or three-quarter turn about such a pivot, on integer
    points. *)
Definition quarterTurn (s d angle : Z) (c : Point) : Point :=
  match angle with
  | 90 => (s - snd c, fst c - d)
  | 180 => (s + d - fst c, s - d - snd c)
  | 270 => (snd c + d, s - fst c)
  | _ => c
  end.

(** A single T piece in the middle of an empty grid. *)
Definition onePiece : State := run initialState [Place T_ 3 3 1000].

(** Every cell of the grid has a level from 0 to 5. *)
Definition levels_ok (grid : Grid) : Prop :=
  Forall (Forall (fun cell => 0 <= c_level cell <= 5)) grid.

(** The operation on grid and pieces that an event carries out, if any. *)
Definition eventOp (u : UIState) (e : Event) : option Op :=
  match e with
  | PaletteDragStart _ | PlacedDragStart _ => None
  | DropAt dropGridX dropGridY now =>
      match isDraggingNew u, selectedTetrominoType u with
      | true, Some type => Some (Place type dropGridX dropGridY now)
      | _, _ =>
          match draggedTetrominoId u with
          | Some id => Some (Move id dropGridX dropGridY now)
          | None => None
          end
      end
  | ClickRotate id => Some (Rotate id)
  | ClickDelete id => Some (Delete id)
  | Fetched data => Some (Refresh data)
  end.

(** The clock values the events read are new ids, as in [clock_fresh]. *)
Fixpoint events_fresh (u : UIState) (events : list Event) : Prop :=
  match events with
  | [] => True
  | e :: events' =>
      match eventOp u e with
      | Some op => op_fresh (ui_state u) op
      | None => True
      end
      ∧ events_fresh (uiStep u e) events'
  end.

(** Every palette drag of the events starts on an entry that is
    draggable at that moment: its type is not placed. *)
Fixpoint drags_from_draggable (u : UIState) (events : list Event) : Prop :=
  match events with
  | [] => True
  | e :: events' =>
      match e with
      | PaletteDragStart type =>
          paletteDraggable (placedTetrominos (ui_state u)) type = true
      | _ => True
      end
      ∧ drags_from_draggable (uiStep u e) events'
  end.

(** A palette drag, then a drop, then the same once more for another
    type, then a move of the first piece. *)
Definition sampleEvents : list Event :=
  [PaletteDragStart T_; DropAt 3 3 1000; PaletteDragStart I_;
   DropAt 1 0 2000; PlacedDragStart 1000; DropAt 5 5 3000].

(** A drag start that reaches the palette entry of a placed type, and the
    drop that follows it. *)
Definition undraggableEvents : list Event :=
  [PaletteDragStart T_; DropAt 3 3 1000; PaletteDragStart T_;
   DropAt 3 5 2000].

(** What the events keep true when palette drags start on draggable
    entries and the clock values are fresh: the piece invariants, one
    piece per type, and a palette drag in progress only for a type that
    is not placed. *)
Definition ui_invariant (u : UIState) : Prop :=
  consistent (ui_state u)
  ∧ distinct_and_apart (ui_state u)
  ∧ NoDup (map p_type (placedTetrominos (ui_state u)))
  ∧ (isDraggingNew u = true →
     ∀ type, selectedTetrominoType u = Some type →
             type ∉ map p_type (placedTetrominos (ui_state u))).

(** * Properties *)

(** ** Levels *)

(** C6: the level of a count is the step function with thresholds 20, 10,
    5 and 0, level 1 at count 0 and level 0 below; the nine boundary values
    are as tabulated. *)
Theorem getContributionLevel_step (count : Z) :
  (20 < count → getContributionLevel count = 5)
  ∧ (10 < count <= 20 → getContributionLevel count = 4)
  ∧ (5 < count <= 10 → getContributionLevel count = 3)
  ∧ (0 < count <= 5 → getContributionLevel count = 2)
  ∧ (count = 0 → getContributionLevel count = 1)
  ∧ (count < 0 → getContributionLevel count = 0)
  ∧ getContributionLevel (-1) = 0
  ∧ getContributionLevel 0 = 1
  ∧ getContributionLevel 1 = 2
  ∧ getContributionLevel 5 = 2
  ∧ getContributionLevel 6 = 3
  ∧ getContributionLevel 10 = 3
  ∧ getContributionLevel 11 = 4
  ∧ getContributionLevel 20 = 4
  ∧ getContributionLevel 21 = 5.
Proof.
  unfold getContributionLevel.
  repeat split; try reflexivity; intros;
    repeat match goal with
      | |- context [?a <? ?b] =>
          destruct (Z.ltb_spec a b); try lia
      | |- context [?a <=? ?b] =>
          destruct (Z.leb_spec a b); try lia
      end.
Qed.

Lemma getContributionLevel_step_witness :
  getContributionLevel 25 = 5 ∧ getContributionLevel (-7) = 0.
Proof.
  split.
  - exact (proj1 (getContributionLevel_step 25) ltac:(lia)).
  - destruct (getContributionLevel_step (-7)) as (_ & _ & _ & _ & _ & H & _).
    apply H. lia.
Defined.

(** ** Shapes *)

Lemma list_min_le (xs : list Z) (v : Z) : v ∈ xs → list_min xs <= v.
Proof.
  destruct xs as [|a r]; [by intros ?%elem_of_nil|]. simpl.
  assert (G : ∀ r a, fold_left Z.min r a <= a
                     ∧ ∀ v, v ∈ r → fold_left Z.min r a <= v).
  { clear. induction r as [|b r IH]; intros a; simpl.
    - split; [lia|]. by intros v ?%elem_of_nil.
    - destruct (IH (Z.min a b)) as [H1 H2]. split; [lia|].
      intros v [->|Hv]%elem_of_cons; [lia|auto]. }
  destruct (G r a) as [H1 H2].
  intros [->|Hv]%elem_of_cons; auto.
Qed.

Lemma list_max_ge (xs : list Z) (v : Z) : v ∈ xs → v <= list_max xs.
Proof.
  destruct xs as [|a r]; [by intros ?%elem_of_nil|]. simpl.
  assert (G : ∀ r a, a <= fold_left Z.max r a
                     ∧ ∀ v, v ∈ r → v <= fold_left Z.max r a).
  { clear. induction r as [|b r IH]; intros a; simpl.
    - split; [lia|]. by intros v ?%elem_of_nil.
    - destruct (IH (Z.max a b)) as [H1 H2]. split; [lia|].
      intros v [->|Hv]%elem_of_cons; [lia|auto]. }
  destruct (G r a) as [H1 H2].
  intros [->|Hv]%elem_of_cons; auto.
Qed.

Lemma right_angle_shape_okb (type : TetrominoType) (rotation : Z) :
  right_angle rotation → shape_okb (relativeShapeOf type rotation) = true.
Proof.
  intros [->|[->|[->| ->]]]; destruct type; vm_compute; reflexivity.
Qed.

Lemma right_angle_shape (type : TetrominoType) (rotation : Z) :
  right_angle rotation →
  length (relativeShapeOf type rotation) = 4%nat
  ∧ NoDup (relativeShapeOf type rotation)
  ∧ boxWidth (relativeShapeOf type rotation) <= 4
  ∧ boxHeight (relativeShapeOf type rotation) <= 4.
Proof.
  intros H%(right_angle_shape_okb type). unfold shape_okb in H.
  repeat (apply andb_prop in H as [H ?]).
  split_and!; [by apply Nat.eqb_eq | by eapply bool_decide_eq_true_1 | lia..].
Qed.

(** ** Drop-position adjustment *)

(** One axis of the adjustment: [lo] and [hi] bound the shape on that
    axis, [size] is the grid's extent. *)
Lemma clamp_axis (lo hi drop size b : Z) :
  hi - lo + 1 <= size → lo <= b <= hi →
  let leftOverflow := - (drop + lo) in
  let rightOverflow := drop + hi - (size - 1) in
  let adjusted := if 0 <? leftOverflow then drop + leftOverflow else drop in
  let adjusted :=
    if 0 <? rightOverflow then adjusted - rightOverflow else adjusted in
  0 <= adjusted + b < size.
Proof.
  intros Hfit Hb. cbv zeta.
  destruct (Z.ltb_spec 0 (- (drop + lo))),
           (Z.ltb_spec 0 (drop + hi - (size - 1))); lia.
Qed.

(** Doubles hold every integer below 2^53 in magnitude. *)
Lemma roundDouble_small (z : Z) : Z.abs z < 2 ^ 53 → roundDouble z = z.
Proof.
  intros H. unfold roundDouble. cbv zeta.
  by destruct (Z.ltb_spec (Z.abs z) (2 ^ 53)); [|lia].
Qed.

(** From 2^53 on the result is a double, a significand of at most 53 bits
    times the spacing of the doubles around [z]; it is a nearest one, and
    on a tie the one with the even significand. *)
Lemma roundDouble_nearest (z : Z) :
  2 ^ 53 <= Z.abs z →
  let ulp := 2 ^ (Z.log2 (Z.abs z) - 52) in
  ∃ m : Z,
    roundDouble z = m * ulp
    ∧ Z.abs m <= 2 ^ 53
    ∧ 2 * Z.abs (roundDouble z - z) <= ulp
    ∧ (2 * Z.abs (roundDouble z - z) = ulp → Z.even m = true).
Proof.
  intros Hbig ulp. unfold roundDouble. cbv zeta. fold ulp.
  destruct (Z.ltb_spec (Z.abs z) (2 ^ 53)) as [|_]; [lia|].
  assert (53 <= Z.log2 (Z.abs z)) as Hlog by (apply Z.log2_le_pow2; lia).
  assert (0 < ulp) as Hulp by (apply Z.pow_pos_nonneg; lia).
  assert (Z.abs z < 2 ^ 53 * ulp) as Hlt.
  { unfold ulp. rewrite <- Z.pow_add_r by lia.
    replace (53 + (Z.log2 (Z.abs z) - 52)) with (Z.succ (Z.log2 (Z.abs z)))
      by lia.
    apply Z.log2_spec. lia. }
  pose proof (Z.div_mod (Z.abs z) ulp ltac:(lia)) as Hdm.
  pose proof (Z.mod_pos_bound (Z.abs z) ulp Hulp) as Hr.
  set (q := Z.abs z / ulp) in *. set (r := Z.abs z `mod` ulp) in *.
  assert (0 <= q < 2 ^ 53) as Hq by nia.
  assert (∀ q', 0 <= q' <= 2 ^ 53 →
                Z.abs (Z.sgn z * q') <= 2 ^ 53
                ∧ Z.abs (Z.sgn z * (q' * ulp) - z) = Z.abs (q' * ulp - Z.abs z)
                ∧ (Z.even q' = true → Z.even (Z.sgn z * q') = true)) as Hsgn.
  { intros q' Hq'. split_and!.
    - destruct (Z.sgn_spec z) as [[? Hs]|[[? Hs]|[? Hs]]]; rewrite Hs; lia.
    - destruct (Z.sgn_spec z) as [[? Hs]|[[? Hs]|[? Hs]]]; rewrite Hs; lia.
    - intros He. rewrite Z.even_mul, He. apply orb_true_r. }
  assert (∀ q', 0 <= q' <= 2 ^ 53 →
                2 * Z.abs (q' * ulp - Z.abs z) <= ulp →
                (2 * Z.abs (q' * ulp - Z.abs z) = ulp → Z.even q' = true) →
                ∃ m : Z,
                  Z.sgn z * (q' * ulp) = m * ulp
                  ∧ Z.abs m <= 2 ^ 53
                  ∧ 2 * Z.abs (Z.sgn z * (q' * ulp) - z) <= ulp
                  ∧ (2 * Z.abs (Z.sgn z * (q' * ulp) - z) = ulp →
                     Z.even m = true)) as Hm.
  { intros q' Hq' Hnear Htie. destruct (Hsgn q' Hq') as (H1 & H2 & H3).
    exists (Z.sgn z * q'). rewrite H2. split_and!; [lia|done..|auto]. }
  destruct (Z.ltb_spec (2 * r) ulp); [apply Hm; lia|].
  destruct (Z.ltb_spec ulp (2 * r)); [apply Hm; lia|].
  destruct (Z.even q) eqn:He; [apply Hm; [lia|lia|done]|].
  apply Hm; [lia|lia|]. intros _.
  rewrite Z.add_1_r, Z.even_succ, <- Z.negb_even, He. done.
Qed.

Example roundDouble_values :
  roundDouble (2 ^ 53 + 1) = 2 ^ 53
  ∧ roundDouble (2 ^ 53 + 3) = 2 ^ 53 + 4
  ∧ roundDouble (2 ^ 55 + 3) = 2 ^ 55
  ∧ roundDouble (2 ^ 55 - 7) = 2 ^ 55 - 8
  ∧ roundDouble (- (2 ^ 53 + 1)) = - 2 ^ 53.
Proof. vm_compute. split_and!; reflexivity. Qed.

(** The extremes of the 28 turned shapes. *)
Lemma right_angle_extremes (type : TetrominoType) (rotation : Z) :
  right_angle rotation →
  -1 <= list_min (map fst (relativeShapeOf type rotation)) <= 3
  ∧ -1 <= list_max (map fst (relativeShapeOf type rotation)) <= 3
  ∧ -1 <= list_min (map snd (relativeShapeOf type rotation)) <= 3
  ∧ -1 <= list_max (map snd (relativeShapeOf type rotation)) <= 3.
Proof.
  intros [->|[->|[->| ->]]]; destruct type; vm_compute;
    repeat split; discriminate.
Qed.

(** One axis of the adjustment in double arithmetic: for a requested
    coordinate below 2^53 - 16 in magnitude no sum or difference is
    rounded. *)
Lemma clamp_axis_exact (lo hi drop size : Z) :
  -1 <= lo <= 3 → -1 <= hi <= 3 → 1 <= size <= 8 →
  Z.abs drop <= 2 ^ 53 - 16 →
  (let leftOverflow := - (js_add drop lo) in
   let rightOverflow := js_sub (js_add drop hi) (size - 1) in
   let adjusted :=
     if 0 <? leftOverflow then js_add drop leftOverflow else drop in
   if 0 <? rightOverflow then js_sub adjusted rightOverflow else adjusted)
  = (let leftOverflow := - (drop + lo) in
     let rightOverflow := drop + hi - (size - 1) in
     let adjusted := if 0 <? leftOverflow then drop + leftOverflow else drop in
     if 0 <? rightOverflow then adjusted - rightOverflow else adjusted).
Proof.
  intros Hlo Hhi Hsize Hdrop. cbv zeta. unfold js_add, js_sub.
  change (2 ^ 53) with 9007199254740992 in Hdrop.
  assert (∀ z, Z.abs z < 9007199254740992 → roundDouble z = z) as Hsmall
    by apply roundDouble_small.
  rewrite (Hsmall (drop + lo)), (Hsmall (drop + hi)) by lia.
  rewrite (Hsmall (drop + hi - (size - 1))) by lia.
  destruct (Z.ltb_spec 0 (- (drop + lo))),
           (Z.ltb_spec 0 (drop + hi - (size - 1)));
    repeat match goal with
      | |- context [roundDouble ?z] => rewrite (Hsmall z) by lia
      end; done.
Qed.

(** On requested coordinates below 2^53 - 16 in magnitude the adjustment
    in double arithmetic is the adjustment on exact integers. *)
Lemma getAdjustedDropPosition_double_exact
    (type : TetrominoType) (rotation dropX dropY : Z) :
  right_angle rotation →
  Z.abs dropX <= 2 ^ 53 - 16 → Z.abs dropY <= 2 ^ 53 - 16 →
  getAdjustedDropPosition_double type rotation dropX dropY
  = getAdjustedDropPosition type rotation dropX dropY.
Proof.
  intros Hr Hx Hy.
  destruct (right_angle_extremes type rotation Hr) as (H1 & H2 & H3 & H4).
  unfold getAdjustedDropPosition_double, getAdjustedDropPosition.
  fold (relativeShapeOf type rotation). cbv zeta. f_equal.
  - exact (clamp_axis_exact _ _ dropX GRID_WIDTH H1 H2 ltac:(done) Hx).
  - exact (clamp_axis_exact _ _ dropY GRID_HEIGHT H3 H4 ltac:(done) Hy).
Qed.

(** C7, amended: for every piece type, right-angle rotation and requested
    anchor whose coordinates are at most 2^52 in magnitude, if the turned
    shape's bounding box is at most 8 wide and 7 tall, the anchor the
    adjustment returns puts every point of the bounding box inside the
    grid. *)
Theorem getAdjustedDropPosition_in_grid
    (type : TetrominoType) (rotation dropX dropY : Z) :
  right_angle rotation →
  Z.abs dropX <= 2 ^ 52 → Z.abs dropY <= 2 ^ 52 →
  boxWidth (relativeShapeOf type rotation) <= GRID_WIDTH →
  boxHeight (relativeShapeOf type rotation) <= GRID_HEIGHT →
  ∀ bx by_ : Z,
    list_min (map fst (relativeShapeOf type rotation)) <= bx
      <= list_max (map fst (relativeShapeOf type rotation)) →
    list_min (map snd (relativeShapeOf type rotation)) <= by_
      <= list_max (map snd (relativeShapeOf type rotation)) →
    0 <= fst (getAdjustedDropPosition_double type rotation dropX dropY) + bx
      < 8
    ∧ 0 <= snd (getAdjustedDropPosition_double type rotation dropX dropY)
             + by_ < 7.
Proof.
  intros Hr Hx Hy Hw Hh bx by_ Hbx Hby.
  change (2 ^ 52) with 4503599627370496 in Hx, Hy.
  rewrite getAdjustedDropPosition_double_exact
    by (done || (change (2 ^ 53) with 9007199254740992; lia)).
  unfold boxWidth, boxHeight in Hw, Hh. split.
  - exact (clamp_axis _ _ dropX GRID_WIDTH bx Hw Hbx).
  - exact (clamp_axis _ _ dropY GRID_HEIGHT by_ Hh Hby).
Qed.

Lemma getAdjustedDropPosition_in_grid_witness :
  0 <= fst (getAdjustedDropPosition_double I_ 90 (-5) 20) + 2 < 8
  ∧ 0 <= snd (getAdjustedDropPosition_double I_ 90 (-5) 20) + 2 < 7.
Proof.
  apply (getAdjustedDropPosition_in_grid I_ 90 (-5) 20).
  - unfold right_angle. lia.
  - vm_compute. discriminate.
  - vm_compute. discriminate.
  - vm_compute. discriminate.
  - vm_compute. discriminate.
  - vm_compute. split; discriminate.
  - vm_compute. split; discriminate.
Defined.

(** From 2^53 on the sums of the adjustment are rounded. For the I piece
    at rotation 0 (columns 0 to 3 of the shape) the exact adjusted anchor
    is 4; the source returns 3 for the requested column 2^53, 5 for
    2^53 + 2 and 8 for 2^55. *)
Example getAdjustedDropPosition_double_rounds :
  getAdjustedDropPosition_double I_ 0 (2 ^ 53) 0 = (3, 0)
  ∧ getAdjustedDropPosition_double I_ 0 (2 ^ 53 + 2) 0 = (5, 0)
  ∧ getAdjustedDropPosition_double I_ 0 (2 ^ 55) 0 = (8, 0)
  ∧ getAdjustedDropPosition I_ 0 (2 ^ 55) 0 = (4, 0).
Proof. vm_compute. split_and!; reflexivity. Qed.

(** The requested column 2^55 is a double; the adjustment returns the
    anchor 8 for the I piece, whose box then covers the columns 8 to 11,
    outside the grid. *)
Lemma getAdjustedDropPosition_double_leaves_grid :
  ¬ adjusted_in_grid_as_specified.
Proof.
  intros H.
  assert (getAdjustedDropPosition_double I_ 0 (2 ^ 55) 0 = (8, 0)) as Ha
    by (vm_compute; reflexivity).
  destruct (H I_ 0 (2 ^ 55) 0) with (bx := 0) (by_ := 0) as [[_ Hlt] _].
  - by left.
  - vm_compute. reflexivity.
  - vm_compute. reflexivity.
  - vm_compute. discriminate.
  - vm_compute. discriminate.
  - vm_compute. split; discriminate.
  - vm_compute. split; discriminate.
  - rewrite Ha in Hlt. cbn [fst] in Hlt. lia.
Qed.

(** The premise of the adjustment always holds for the catalog: every
    turned shape fits a 4 by 4 box. *)
Lemma right_angle_box_fits (type : TetrominoType) (rotation : Z) :
  right_angle rotation →
  boxWidth (relativeShapeOf type rotation) <= GRID_WIDTH
  ∧ boxHeight (relativeShapeOf type rotation) <= GRID_HEIGHT.
Proof.
  intros (_ & _ & Hw & Hh)%(right_angle_shape type).
  unfold GRID_WIDTH, GRID_HEIGHT. lia.
Qed.

(** ** Per-piece details *)

Lemma details_loop (grid : Grid) (cells : list Point)
    (score0 : Z) (blocks0 : list BlockDetail) :
  fold_left
    (fun '(scorePotential, blockDetails) a =>
       let block := blockAt grid a in
       (scorePotential + b_score block, blockDetails ++ [block]))
    cells (score0, blocks0)
  = (score0 + sumZ (map (cellScore grid) cells),
     blocks0 ++ map (blockAt grid) cells).
Proof.
  revert score0 blocks0.
  induction cells as [|[ax ay] cells IH]; intros score0 blocks0; simpl.
  - by rewrite Z.add_0_r, app_nil_r.
  - rewrite IH, <- app_assoc. simpl. f_equal.
    unfold cellScore at 2. simpl. lia.
Qed.

Lemma calculateTetrominoDetails_eq (grid : Grid) (type : TetrominoType)
    (x y rotation : Z) :
  calculateTetrominoDetails grid (Some type) x y rotation
  = mkDetails (absolutePositionsOf type x y rotation)
      (sumZ (map (cellScore grid) (absolutePositionsOf type x y rotation)))
      (map (blockAt grid) (absolutePositionsOf type x y rotation)).
Proof.
  unfold calculateTetrominoDetails.
  fold (relativeShapeOf type rotation).
  fold (absolutePositionsOf type x y rotation).
  by rewrite details_loop.
Qed.

Lemma length_rotateShape shape pivot angle :
  length (rotateShape shape pivot angle) = length shape.
Proof. unfold rotateShape. destruct pivot. by rewrite length_map. Qed.

Lemma length_absolutePositionsOf type x y rotation :
  length (absolutePositionsOf type x y rotation) = 4%nat.
Proof.
  unfold absolutePositionsOf, relativeShapeOf.
  rewrite length_map, length_rotateShape. by destruct type.
Qed.

Lemma sumZ_b_score (grid : Grid) (cells : list Point) :
  sumZ (map b_score (map (blockAt grid) cells))
  = sumZ (map (cellScore grid) cells).
Proof.
  induction cells as [|[ax ay] cells IH]; simpl; [done|]. by rewrite IH.
Qed.

Lemma levelAt_outside (grid : Grid) (ax ay : Z) :
  out_of_grid (ax, ay) = true
  ∨ grid !! Z.to_nat ay ≫= (fun row => row !! Z.to_nat ax) = None →
  levelAt grid ax ay = 0.
Proof.
  unfold levelAt, out_of_grid, GRID_WIDTH, GRID_HEIGHT.
  intros [H|H].
  - destruct (_ && _) eqn:E; [|done]. exfalso. lia.
  - destruct (_ && _); [|done].
    destruct (grid !! Z.to_nat ay) as [row|]; [|done]. simpl in H.
    by rewrite H.
Qed.

(** C10: computing the details of a piece is total: for every grid (also
    the empty one), type, rotation and anchor the result has 4 cells and
    4 blocks, one per cell in order; a block whose cell is outside the
    grid bounds or has no grid entry has level 0 and score 0; and
    scorePotential is the sum of the 4 block scores. *)
Theorem calculateTetrominoDetails_total
    (grid : Grid) (type : TetrominoType) (x y rotation : Z) :
  let d := calculateTetrominoDetails grid (Some type) x y rotation in
  length (d_absolutePositions d) = 4%nat
  ∧ length (d_blockDetails d) = 4%nat
  ∧ map (fun b => (b_x b, b_y b)) (d_blockDetails d) = d_absolutePositions d
  ∧ (∀ b, b ∈ d_blockDetails d →
       b_score b = b_level b * 100
       ∧ (out_of_grid (b_x b, b_y b) = true
          ∨ grid !! Z.to_nat (b_y b) ≫= (fun row => row !! Z.to_nat (b_x b))
            = None →
          b_level b = 0 ∧ b_score b = 0))
  ∧ d_scorePotential d = sumZ (map b_score (d_blockDetails d)).
Proof.
  rewrite calculateTetrominoDetails_eq. simpl.
  split_and!.
  - apply length_absolutePositionsOf.
  - by rewrite length_map, length_absolutePositionsOf.
  - rewrite map_map. induction (absolutePositionsOf _ _ _ _) as [|[??] ? IH];
      simpl; [done|]. by rewrite IH.
  - intros b [[ax ay] [-> _]]%list_elem_of_fmap. simpl.
    split; [done|]. intros H. rewrite (levelAt_outside _ _ _ H). done.
  - by rewrite sumZ_b_score.
Qed.

(** ** Collision test *)

Lemma same_cell_eq (c d : Point) : same_cell c d = true ↔ c = d.
Proof.
  destruct c, d. unfold same_cell. simpl.
  rewrite andb_true_iff, !Z.eqb_eq. split; [intros [-> ->]|intros [= -> ->]]; done.
Qed.

Lemma out_of_grid_false (c : Point) : out_of_grid c = false ↔ in_grid c.
Proof.
  destruct c as [x y]. unfold out_of_grid, in_grid, GRID_WIDTH, GRID_HEIGHT.
  simpl. rewrite !orb_false_iff, !Z.ltb_ge, !Z.leb_gt. lia.
Qed.

Lemma checkCollision_true (cells : list Point) (currentId : option Z)
    (prev : list Tetromino) :
  checkCollision cells currentId prev = true
  ↔ (∃ c, c ∈ cells ∧ out_of_grid c = true)
    ∨ overlapsOther cells currentId prev.
Proof.
  unfold checkCollision, overlapsOther. rewrite existsb_exists. split.
  - intros (c & Hc%list_elem_of_In & [H|H]%orb_prop); [left; eauto|right].
    apply existsb_exists in H as (p & Hp%list_elem_of_In & H).
    apply andb_prop in H as [Hcur H]. apply negb_true_iff in Hcur.
    apply existsb_exists in H as (d & Hd%list_elem_of_In & ->%same_cell_eq).
    eauto 10.
  - intros [(c & Hc & H)|(p & c & Hp & Hcur & Hc & Hd)];
      exists c; (split; [by apply list_elem_of_In|]).
    + by rewrite H.
    + apply orb_true_iff. right. apply existsb_exists.
      exists p. split; [by apply list_elem_of_In|].
      rewrite Hcur. simpl. apply existsb_exists.
      exists c. split; [by apply list_elem_of_In|]. by apply same_cell_eq.
Qed.

Lemma checkCollision_false (cells : list Point) (currentId : option Z)
    (prev : list Tetromino) :
  checkCollision cells currentId prev = false
  ↔ Forall in_grid cells ∧ ¬ overlapsOther cells currentId prev.
Proof.
  rewrite <- not_true_iff_false, checkCollision_true, Forall_forall.
  split.
  - intros H. split.
    + intros c Hc. apply out_of_grid_false.
      destruct (out_of_grid c) eqn:E; [|done]. destruct H. eauto.
    + intros Ho. apply H. by right.
  - intros [Hin Ho] [(c & Hc & H)|H]; [|done].
    apply Hin, out_of_grid_false in Hc. congruence.
Qed.

(** After the adjustment every cell of the piece is inside the grid. *)
Lemma adjusted_cells_in_grid (type : TetrominoType) (rotation dropX dropY : Z) :
  right_angle rotation →
  Forall in_grid
    (absolutePositionsOf type
       (fst (getAdjustedDropPosition type rotation dropX dropY))
       (snd (getAdjustedDropPosition type rotation dropX dropY))
       rotation).
Proof.
  intros Hr. destruct (right_angle_box_fits type rotation Hr) as [Hw Hh].
  apply Forall_forall. intros c Hc. unfold absolutePositionsOf in Hc.
  apply list_elem_of_fmap in Hc as ([rx ry] & -> & Hrel).
  unfold boxWidth, boxHeight in Hw, Hh. split.
  - apply (clamp_axis _ _ dropX GRID_WIDTH rx Hw).
    split; [apply list_min_le | apply list_max_ge];
      apply list_elem_of_fmap; by exists (rx, ry).
  - apply (clamp_axis _ _ dropY GRID_HEIGHT ry Hh).
    split; [apply list_min_le | apply list_max_ge];
      apply list_elem_of_fmap; by exists (rx, ry).
Qed.

(** ** Handlers, one by one *)

Lemma handlePlacement_eq grid prev type rotation baseDropX baseDropY id now :
  handlePlacement grid prev type rotation baseDropX baseDropY id now
  = let a := placementAnchor type rotation baseDropX baseDropY in
    if checkCollision (absolutePositionsOf type (fst a) (snd a) rotation)
         id prev
    then None
    else Some (pieceAt grid (placementId id now) type (fst a) (snd a) rotation).
Proof.
  unfold handlePlacement, placementAnchor. cbv zeta.
  destruct (getAdjustedDropPosition _ _ _ _) as [ax ay].
  by rewrite calculateTetrominoDetails_eq.
Qed.

Lemma kickCandidate_eq grid tetromino newRotation d :
  kickCandidate grid tetromino newRotation d
  = let a := kickAnchor tetromino newRotation d in
    (fst a, snd a,
     mkDetails
       (absolutePositionsOf (p_type tetromino) (fst a) (snd a) newRotation)
       (sumZ (map (cellScore grid)
                (absolutePositionsOf (p_type tetromino) (fst a) (snd a)
                   newRotation)))
       (map (blockAt grid)
          (absolutePositionsOf (p_type tetromino) (fst a) (snd a)
             newRotation))).
Proof.
  unfold kickCandidate, kickAnchor. destruct d as [dx dy]. cbn [fst snd].
  destruct (getAdjustedDropPosition _ _ _ _) as [ax ay].
  by rewrite calculateTetrominoDetails_eq.
Qed.

Lemma tryKicks_cons grid prev i t newRotation d kicks :
  tryKicks grid prev i t newRotation (d :: kicks)
  = if checkCollision (kickCells t newRotation d) (Some (p_id t)) prev
    then tryKicks grid prev i t newRotation kicks
    else <[i := kickedPiece grid t newRotation d]> prev.
Proof.
  cbn [tryKicks]. rewrite kickCandidate_eq. cbv zeta.
  fold (kickCells t newRotation d). cbn [d_absolutePositions].
  by destruct (checkCollision _ _ _).
Qed.

(** The loop stops at the first offset that passes the collision test. *)
Lemma tryKicks_spec grid prev i t newRotation kicks :
  (Forall (fun d => checkCollision (kickCells t newRotation d)
                      (Some (p_id t)) prev = true) kicks
   ∧ tryKicks grid prev i t newRotation kicks = prev)
  ∨ (∃ before d after,
       kicks = before ++ d :: after
       ∧ Forall (fun d' => checkCollision (kickCells t newRotation d')
                             (Some (p_id t)) prev = true) before
       ∧ checkCollision (kickCells t newRotation d) (Some (p_id t)) prev
         = false
       ∧ tryKicks grid prev i t newRotation kicks
         = <[i := kickedPiece grid t newRotation d]> prev).
Proof.
  induction kicks as [|d kicks IH].
  - left. split; [constructor|done].
  - rewrite tryKicks_cons.
    destruct (checkCollision (kickCells t newRotation d) _ prev) eqn:E.
    + destruct IH as [[Hall Heq]|(before & d' & after & -> & Hb & Hd & Heq)].
      * left. split; [by constructor|done].
      * right. exists (d :: before), d', after.
        split_and!; [done|by constructor|done..].
    + right. exists [], d, kicks. split_and!; [done|constructor|done..].
Qed.

Lemma right_angle_next (r : Z) :
  right_angle r →
  Z.rem (r + 90) 360 = (r + 90) `mod` 360 ∧ right_angle (Z.rem (r + 90) 360).
Proof.
  unfold right_angle. intros [->|[->|[->| ->]]]; vm_compute; intuition.
Qed.

(** After the adjustment the collision test only sees other pieces. *)
Lemma checkCollision_kick t newRotation d currentId prev :
  right_angle newRotation →
  checkCollision (kickCells t newRotation d) currentId prev = true
  ↔ overlapsOther (kickCells t newRotation d) currentId prev.
Proof.
  intros Hr. rewrite checkCollision_true. split; [|by right].
  intros [(c & Hc & Hout)|H]; [|done].
  pose proof (adjusted_cells_in_grid (p_type t) newRotation
                (p_x t + fst d) (p_y t + snd d) Hr) as Hin.
  rewrite Forall_forall in Hin. apply Hin, out_of_grid_false in Hc.
  congruence.
Qed.

(** C3: rotating the first piece with the given id sets the new rotation to
    (rotation + 90) mod 360 and tries the offsets (0,0), (-1,0), (1,0),
    (-2,0), (2,0) in that order, each added to the current anchor and then
    adjusted into the grid for the new rotation; the piece is replaced, at
    its index, by the candidate of the first offset whose cells overlap no
    piece with a different id (new rotation, adjusted anchor, derived fields
    recomputed), whatever the later offsets would give. *)
Theorem handleRotate_first_free_kick
    (grid : Grid) (id : Z) (prev : list Tetromino) (i : nat) (t : Tetromino) :
  list_find (fun t => p_id t = id) prev = Some (i, t) →
  right_angle (p_rotation t) →
  let newRotation := (p_rotation t + 90) `mod` 360 in
  kickTranslations = [(0, 0); (-1, 0); (1, 0); (-2, 0); (2, 0)]
  ∧ ∀ (k : nat) (d : Z * Z),
      kickTranslations !! k = Some d →
      (∀ (j : nat) (d' : Z * Z),
         (j < k)%nat → kickTranslations !! j = Some d' →
         overlapsOther (kickCells t newRotation d') (Some id) prev) →
      ¬ overlapsOther (kickCells t newRotation d) (Some id) prev →
      handleRotate grid id prev
      = <[i := mkTetromino (p_id t) (p_type t)
                 (fst (getAdjustedDropPosition (p_type t) newRotation
                         (p_x t + fst d) (p_y t + snd d)))
                 (snd (getAdjustedDropPosition (p_type t) newRotation
                         (p_x t + fst d) (p_y t + snd d)))
                 newRotation
                 (kickCells t newRotation d)
                 (sumZ (map (cellScore grid) (kickCells t newRotation d)))
                 (map (blockAt grid) (kickCells t newRotation d))]> prev.
Proof.
  intros Hfind Hr newRotation. split; [done|].
  intros k d Hk Hbefore Hfree.
  unfold handleRotate. rewrite Hfind.
  apply list_find_Some in Hfind as (Hi & <- & _).
  destruct (right_angle_next _ Hr) as [Hrem Hr'].
  rewrite Hrem in *. fold newRotation in Hr' |- *.
  destruct (tryKicks_spec grid prev i t newRotation kickTranslations)
    as [[Hall _]|(before & d0 & after & Hsplit & Hb & Hd0 & ->)].
  - rewrite Forall_forall in Hall.
    specialize (Hall d (list_elem_of_lookup_2 _ _ _ Hk)).
    by apply checkCollision_kick in Hall.
  - assert (k = length before ∧ d0 = d) as [-> ->]; [|done].
    destruct (Nat.lt_trichotomy k (length before)) as [Hlt|[->|Hlt]].
    + exfalso. rewrite Hsplit, lookup_app_l in Hk by done.
      rewrite Forall_forall in Hb. apply list_elem_of_lookup_2, Hb in Hk.
      by apply checkCollision_kick in Hk.
    + rewrite Hsplit, list_lookup_middle in Hk by done. by injection Hk as ->.
    + exfalso.
      assert (kickTranslations !! length before = Some d0) as Hd
        by (rewrite Hsplit; by apply list_lookup_middle).
      apply (Hbefore _ _ Hlt), checkCollision_kick in Hd; [congruence|done].
Qed.

(** ** Rejected operations *)

Lemma handleDelete_absent (id : Z) (prev : list Tetromino) :
  id ∉ map p_id prev → handleDelete id prev = prev.
Proof.
  unfold handleDelete. induction prev as [|p prev IH]; [done|].
  intros Hid. rewrite filter_cons_True.
  - f_equal. apply IH. intros H. apply Hid. simpl. by right.
  - intros <-. apply Hid. simpl. by left.
Qed.

(** C8: a failing operation leaves the state as it was: a drop from the
    palette or a move whose adjusted cells overlap another piece (any
    piece for a drop, a piece with a different id for a move), a rotation
    all five of whose candidates overlap a piece with a different id, and
    the deletion of an id that is not placed. *)
Theorem rejected_operations_change_nothing (s : State) :
  (∀ type dropGridX dropGridY now,
     let a := placementAnchor type 0 dropGridX dropGridY in
     overlapsOther (absolutePositionsOf type (fst a) (snd a) 0) None
       (placedTetrominos s) →
     step s (Place type dropGridX dropGridY now) = s)
  ∧ (∀ id dropGridX dropGridY now i t,
       list_find (fun t => p_id t = id) (placedTetrominos s) = Some (i, t) →
       let a :=
         placementAnchor (p_type t) (p_rotation t) dropGridX dropGridY in
       overlapsOther
         (absolutePositionsOf (p_type t) (fst a) (snd a) (p_rotation t))
         (Some id) (placedTetrominos s) →
       step s (Move id dropGridX dropGridY now) = s)
  ∧ (∀ id i t,
       list_find (fun t => p_id t = id) (placedTetrominos s) = Some (i, t) →
       (∀ d, d ∈ kickTranslations →
             overlapsOther (kickCells t (Z.rem (p_rotation t + 90) 360) d)
               (Some id) (placedTetrominos s)) →
       step s (Rotate id) = s)
  ∧ (∀ id, id ∉ map p_id (placedTetrominos s) → step s (Delete id) = s).
Proof.
  destruct s as [grid prev].
  cbn [step contributionGrid placedTetrominos]. split_and!.
  - intros type x y now Ho. unfold dropNew.
    rewrite handlePlacement_eq. cbv zeta.
    by rewrite (proj2 (checkCollision_true _ _ _) (or_intror Ho)).
  - intros id x y now i t Hfind Ho. unfold dropMove.
    rewrite Hfind, handlePlacement_eq. cbv zeta.
    by rewrite (proj2 (checkCollision_true _ _ _) (or_intror Ho)).
  - intros id i t Hfind Hall. unfold handleRotate. rewrite Hfind.
    apply list_find_Some in Hfind as (_ & <- & _).
    destruct (tryKicks_spec grid prev i t (Z.rem (p_rotation t + 90) 360)
                kickTranslations)
      as [[_ ->]|(before & d & after & Hsplit & _ & Hd & _)]; [done|].
    exfalso. apply not_true_iff_false in Hd. apply Hd.
    apply checkCollision_true. right. apply Hall.
    rewrite Hsplit. apply elem_of_app. right. by left.
  - intros id Hid. by rewrite handleDelete_absent.
Qed.

(** ** Invariants of the piece list *)

Lemma pieceAt_ok grid id type x y rotation :
  right_angle rotation →
  Forall in_grid (absolutePositionsOf type x y rotation) →
  piece_ok grid (pieceAt grid id type x y rotation).
Proof. intros. by split_and!. Qed.

Lemma handlePlacement_ok grid prev type rotation x y id now p :
  right_angle rotation →
  handlePlacement grid prev type rotation x y id now = Some p →
  piece_ok grid p.
Proof.
  intros Hr. rewrite handlePlacement_eq. cbv zeta.
  destruct (checkCollision _ _ _) eqn:E; [done|]. intros [= <-].
  apply checkCollision_false in E as [Hin _]. by apply pieceAt_ok.
Qed.

Lemma tryKicks_ok grid prev i t newRotation kicks :
  right_angle newRotation →
  Forall (piece_ok grid) prev →
  Forall (piece_ok grid) (tryKicks grid prev i t newRotation kicks).
Proof.
  intros Hr Hprev.
  destruct (tryKicks_spec grid prev i t newRotation kicks)
    as [[_ ->]|(before & d & after & _ & _ & Hd & ->)]; [done|].
  apply checkCollision_false in Hd as [Hin _].
  destruct (decide (i < length prev)%nat) as [Hi|Hi].
  - apply Forall_insert; [done|]. by apply pieceAt_ok.
  - by rewrite list_insert_ge by lia.
Qed.

Lemma length_loadStep contributions grid i :
  length (loadStep contributions grid i) = length grid.
Proof.
  unfold loadStep. cbv zeta. destruct (contributions !! Z.to_nat i); [|done].
  destruct (_ && _); [|done]. unfold setCell. by rewrite length_alter.
Qed.

Lemma length_transformContributionsToGrid (contributions : list Contribution) :
  length (transformContributionsToGrid contributions) = 7%nat.
Proof.
  unfold transformContributionsToGrid. cbv zeta.
  generalize (seqZ 0 (GRID_WIDTH * GRID_HEIGHT)).
  assert (length (replicate (Z.to_nat GRID_HEIGHT)
                    (replicate (Z.to_nat GRID_WIDTH) defaultCell)) = 7%nat)
    as Hlen by done.
  revert Hlen. generalize (replicate (Z.to_nat GRID_HEIGHT)
                             (replicate (Z.to_nat GRID_WIDTH) defaultCell)).
  intros g Hg l. revert g Hg.
  induction l as [|i l IH]; intros g Hg; cbn [fold_left]; [done|].
  apply IH. by rewrite length_loadStep.
Qed.

Lemma refreshTetrominos_eq (loading : bool) (grid : Grid)
    (prev : list Tetromino) :
  refreshTetrominos loading grid prev
  = if negb loading && (0 <? Z.of_nat (length grid))
       && (0 <? Z.of_nat (length prev))
    then map (fun t => pieceAt grid (p_id t) (p_type t) (p_x t) (p_y t)
                         (p_rotation t)) prev
    else prev.
Proof.
  unfold refreshTetrominos. destruct (_ && _ && _); [|done].
  apply map_ext. intros t. cbv zeta. by rewrite calculateTetrominoDetails_eq.
Qed.

Lemma refreshTetrominos_ok (grid grid' : Grid) (prev : list Tetromino) :
  grid' = grid ∨ (0 < length grid')%nat →
  Forall (piece_ok grid) prev →
  Forall (piece_ok grid') (refreshTetrominos false grid' prev).
Proof.
  intros Hg Hprev. rewrite refreshTetrominos_eq.
  destruct (negb false && _ && _) eqn:E.
  - apply Forall_fmap. eapply Forall_impl; [exact Hprev|].
    intros p (Hr & Hp & Hin). unfold compose.
    apply pieceAt_ok; [done|]. by rewrite Hp in Hin.
  - destruct Hg as [->|Hg]; [done|].
    destruct prev; [constructor|]. exfalso. cbn [negb andb] in E.
    apply andb_false_iff in E as [E%Z.ltb_ge|E%Z.ltb_ge];
      [lia|cbn [length] in E; lia].
Qed.

Lemma step_consistent (s : State) (op : Op) :
  consistent s → consistent (step s op).
Proof.
  destruct s as [grid prev]. unfold consistent. simpl. intros Hprev.
  destruct op as [type x y now|id x y now|id|id|data]; simpl.
  - unfold dropNew.
    destruct (handlePlacement _ _ _ _ _ _ _ _) as [p|] eqn:E; [|done].
    apply Forall_app. split; [done|]. constructor; [|constructor].
    eapply handlePlacement_ok; [|exact E]. by left.
  - unfold dropMove.
    destruct (list_find _ prev) as [[i t]|] eqn:Hfind; [|done].
    destruct (handlePlacement _ _ _ _ _ _ _ _) as [p|] eqn:E; [|done].
    apply list_find_Some in Hfind as (Hi%list_elem_of_lookup_2 & _ & _).
    rewrite Forall_forall in Hprev.
    assert (piece_ok grid p) as Hp.
    { eapply handlePlacement_ok; [|exact E]. by apply (Hprev t). }
    apply Forall_fmap, Forall_forall. intros q Hq. simpl.
    destruct (p_id q =? id); auto.
  - unfold handleRotate.
    destruct (list_find _ prev) as [[i t]|] eqn:Hfind; [|done].
    apply list_find_Some in Hfind as (Hi%list_elem_of_lookup_2 & _ & _).
    apply tryKicks_ok; [|done].
    rewrite Forall_forall in Hprev. apply right_angle_next, (Hprev t Hi).
  - unfold handleDelete. apply Forall_forall.
    intros p [_ Hp]%list_elem_of_filter.
    rewrite Forall_forall in Hprev. auto.
  - apply (refreshTetrominos_ok grid); [|done].
    destruct data; [by left|right].
    rewrite length_transformContributionsToGrid. lia.
Qed.

Lemma run_consistent (ops : list Op) (s : State) :
  consistent s → consistent (run s ops).
Proof.
  revert s. induction ops as [|op ops IH]; intros s Hs; simpl; [done|].
  apply IH. by apply step_consistent.
Qed.

Lemma initialState_consistent : consistent initialState.
Proof. constructor. Qed.

(** ** Scores *)

Lemma potentialScore_sum (pieces : list Tetromino) :
  potentialScore pieces = sumZ (map p_scorePotential pieces).
Proof.
  unfold potentialScore.
  assert (∀ acc, fold_left (fun sum piece => sum + p_scorePotential piece)
                   pieces acc
                 = acc + sumZ (map p_scorePotential pieces)) as H.
  { induction pieces as [|p pieces IH]; intros acc; simpl; [lia|].
    rewrite IH. lia. }
  by rewrite H.
Qed.

Lemma piece_ok_score (grid : Grid) (p : Tetromino) :
  piece_ok grid p →
  p_absolutePositions p
  = absolutePositionsOf (p_type p) (p_x p) (p_y p) (p_rotation p)
  ∧ p_scorePotential p
    = sumZ (map (cellScore grid) (p_absolutePositions p))
  ∧ p_blockDetails p = map (blockAt grid) (p_absolutePositions p).
Proof.
  intros (_ & Hp & _). destruct p. unfold pieceAt in Hp.
  cbn [p_id p_type p_x p_y p_rotation p_absolutePositions p_scorePotential
       p_blockDetails] in *.
  by injection Hp as -> -> ->.
Qed.

(** C2: after any sequence of operations the score on screen is the sum,
    over the placed pieces, of the sum over the piece's 4 cells of the
    cell's level on the current grid times 100. *)
Theorem potentialScore_is_sum_of_cell_scores (ops : list Op) :
  let s := run initialState ops in
  potentialScore (placedTetrominos s)
  = sumZ (map (fun p =>
                 sumZ (map (fun c =>
                              levelAt (contributionGrid s) (fst c) (snd c)
                              * 100)
                         (p_absolutePositions p)))
            (placedTetrominos s))
  ∧ Forall (fun p => length (p_absolutePositions p) = 4%nat)
      (placedTetrominos s).
Proof.
  intros s.
  pose proof (run_consistent ops _ initialState_consistent) as Hs.
  fold s in Hs. unfold consistent in Hs. split.
  - rewrite potentialScore_sum.
    induction Hs as [|p pieces Hp _ IH]; simpl; [done|].
    rewrite IH. f_equal.
    by destruct (piece_ok_score _ _ Hp) as (_ & -> & _).
  - eapply Forall_impl; [exact Hs|]. intros p Hp.
    destruct (piece_ok_score _ _ Hp) as (-> & _).
    apply length_absolutePositionsOf.
Qed.

(** ** Grid refresh *)

Lemma refreshTetrominos_lookup (loading : bool) (grid : Grid)
    (prev : list Tetromino) (i : nat) (p : Tetromino) :
  prev !! i = Some p →
  ∃ p', refreshTetrominos loading grid prev !! i = Some p'
        ∧ p_id p' = p_id p ∧ p_type p' = p_type p
        ∧ p_x p' = p_x p ∧ p_y p' = p_y p ∧ p_rotation p' = p_rotation p.
Proof.
  intros Hi. rewrite refreshTetrominos_eq. destruct (_ && _ && _).
  - exists (pieceAt grid (p_id p) (p_type p) (p_x p) (p_y p) (p_rotation p)).
    split; [|by split_and!].
    change (map ?f prev) with (f <$> prev).
    by rewrite list_lookup_fmap, Hi.
  - by exists p.
Qed.

Lemma length_refreshTetrominos (loading : bool) (grid : Grid)
    (prev : list Tetromino) :
  length (refreshTetrominos loading grid prev) = length prev.
Proof.
  rewrite refreshTetrominos_eq. destruct (_ && _ && _); [|done].
  apply length_map.
Qed.

(** C9: a grid refresh, in any state the component can reach, keeps the
    number and order of the pieces and, for each piece, its id, type,
    anchor, rotation and absolute cells; the per-cell details and the
    score of the piece afterwards are those of its cells on the new
    grid. *)
Theorem refresh_keeps_positions (ops : list Op) (data : list Contribution) :
  let s := run initialState ops in
  let s' := step s (Refresh data) in
  (data ≠ [] → contributionGrid s' = transformContributionsToGrid data)
  ∧ length (placedTetrominos s') = length (placedTetrominos s)
  ∧ ∀ (i : nat) (p : Tetromino),
      placedTetrominos s !! i = Some p →
      ∃ p', placedTetrominos s' !! i = Some p'
            ∧ p_id p' = p_id p ∧ p_type p' = p_type p
            ∧ p_x p' = p_x p ∧ p_y p' = p_y p
            ∧ p_rotation p' = p_rotation p
            ∧ p_absolutePositions p' = p_absolutePositions p
            ∧ p_blockDetails p'
              = map (blockAt (contributionGrid s')) (p_absolutePositions p)
            ∧ p_scorePotential p'
              = sumZ (map (cellScore (contributionGrid s'))
                        (p_absolutePositions p)).
Proof.
  intros s s'.
  pose proof (run_consistent ops _ initialState_consistent) as Hs.
  fold s in Hs.
  pose proof (step_consistent s (Refresh data) Hs) as Hs'. fold s' in Hs'.
  unfold consistent in Hs, Hs'. rewrite Forall_forall in Hs, Hs'.
  split_and!.
  - by destruct data.
  - apply length_refreshTetrominos.
  - intros i p Hi.
    destruct (refreshTetrominos_lookup false (contributionGrid s') _ _ _ Hi)
      as (p' & Hi' & Hid & Hty & Hx & Hy & Hrot).
    exists p'. split; [exact Hi'|]. split_and!; try done.
    all: destruct (piece_ok_score _ _ (Hs' p' (list_elem_of_lookup_2 _ _ _ Hi')))
      as (Ha' & Hsc' & Hb').
    all: destruct (piece_ok_score _ _ (Hs p (list_elem_of_lookup_2 _ _ _ Hi)))
      as (Ha & _ & _).
    all: assert (p_absolutePositions p' = p_absolutePositions p) as Habs
      by (rewrite Ha', Ha; congruence).
    + done.
    + by rewrite <- Habs.
    + by rewrite <- Habs.
Qed.

(** ** Ids and occupancy *)

Lemma NoDup_ids_inj (pieces : list Tetromino) (p q : Tetromino) :
  NoDup (map p_id pieces) → p ∈ pieces → q ∈ pieces →
  p_id p = p_id q → p = q.
Proof.
  intros Hnd [i Hi]%list_elem_of_lookup_1 [j Hj]%list_elem_of_lookup_1 Hid.
  assert (i = j) as ->; [|congruence].
  apply (NoDup_lookup _ i j (p_id p) Hnd).
  - change (map p_id pieces) with (p_id <$> pieces).
    by rewrite list_lookup_fmap, Hi.
  - change (map p_id pieces) with (p_id <$> pieces).
    by rewrite list_lookup_fmap, Hj, Hid.
Qed.

(** Replacing the pieces that carry [id] by a piece that overlaps no
    other piece keeps ids distinct and pieces apart. *)
Lemma replace_by_id (prev : list Tetromino) (id : Z) (np : Tetromino) :
  NoDup (map p_id prev) → separated prev →
  p_id np = id ∨ p_id np ∉ map p_id prev →
  ¬ overlapsOther (p_absolutePositions np) (Some id) prev →
  NoDup (map p_id (map (fun p => if p_id p =? id then np else p) prev))
  ∧ separated (map (fun p => if p_id p =? id then np else p) prev).
Proof.
  intros Hnd Hsep Hnew Hfree.
  assert (∀ q, q ∈ prev → p_id q ≠ id →
               ∀ c, c ∈ p_absolutePositions np →
                    c ∉ p_absolutePositions q) as Hapart.
  { intros q Hq Hne c Hc Hc'. apply Hfree. exists q, c. split_and!; try done.
    simpl. by apply Z.eqb_neq. }
  assert (∀ q, q ∈ prev → p_id q ≠ id → p_id np ≠ p_id q) as Hnpid.
  { intros q Hq Hne Heq. destruct Hnew as [Hnew|Hnew]; [congruence|].
    apply Hnew. rewrite Heq. apply list_elem_of_fmap. by exists q. }
  split.
  - rewrite map_map. apply NoDup_fmap_2_strong; [|by eapply NoDup_fmap_1].
    intros p q Hp Hq.
    destruct (Z.eqb_spec (p_id p) id) as [Hpi|Hpi],
             (Z.eqb_spec (p_id q) id) as [Hqi|Hqi]; intros Heq.
    + apply (NoDup_ids_inj prev); congruence.
    + by destruct (Hnpid q Hq Hqi).
    + by destruct (Hnpid p Hp Hpi).
    + by apply (NoDup_ids_inj prev).
  - intros p' q' [p [-> Hp]]%list_elem_of_fmap [q [-> Hq]]%list_elem_of_fmap.
    destruct (Z.eqb_spec (p_id p) id) as [Hpi|Hpi],
             (Z.eqb_spec (p_id q) id) as [Hqi|Hqi]; intros Hne c Hc.
    + done.
    + by apply Hapart.
    + intros Hc'. by apply (Hapart p Hp Hpi c).
    + by apply (Hsep p q).
Qed.

Lemma insert_as_replace (prev : list Tetromino) (i : nat) (t np : Tetromino) :
  NoDup (map p_id prev) → prev !! i = Some t →
  <[i := np]> prev
  = map (fun p => if p_id p =? p_id t then np else p) prev.
Proof.
  intros Hnd Hi. apply list_eq. intros j.
  change (map ?f prev) with (f <$> prev). rewrite list_lookup_fmap.
  destruct (decide (i = j)) as [<-|Hij].
  - rewrite list_lookup_insert_eq by by eapply lookup_lt_Some.
    rewrite Hi. simpl. by rewrite Z.eqb_refl.
  - rewrite list_lookup_insert_ne by done.
    destruct (prev !! j) as [q|] eqn:Hj; [|done]. simpl.
    destruct (Z.eqb_spec (p_id q) (p_id t)) as [Heq|]; [|done].
    destruct Hij.
    assert (q = t) as -> by (eapply (NoDup_ids_inj prev);
                             eauto using list_elem_of_lookup_2).
    apply (NoDup_lookup _ i j (p_id t) Hnd);
      change (map p_id prev) with (p_id <$> prev);
      rewrite list_lookup_fmap; by (rewrite Hi || rewrite Hj).
Qed.

Lemma dropNew_cases grid prev type x y now :
  dropNew grid prev type x y now = prev
  ∨ ∃ np, dropNew grid prev type x y now = prev ++ [np]
          ∧ p_id np = now
          ∧ ¬ overlapsOther (p_absolutePositions np) None prev.
Proof.
  unfold dropNew. rewrite handlePlacement_eq. cbv zeta.
  destruct (checkCollision _ _ _) eqn:E; [by left|right].
  apply checkCollision_false in E as [_ Hfree]. eauto.
Qed.

Lemma refresh_positions (s : State) (data : list Contribution) :
  consistent s →
  ∀ (i : nat) (p : Tetromino),
    placedTetrominos s !! i = Some p →
    ∃ p', placedTetrominos (step s (Refresh data)) !! i = Some p'
          ∧ p_id p' = p_id p ∧ p_type p' = p_type p
          ∧ p_x p' = p_x p ∧ p_y p' = p_y p
          ∧ p_rotation p' = p_rotation p
          ∧ p_absolutePositions p' = p_absolutePositions p.
Proof.
  intros Hs i p Hi.
  pose proof (step_consistent s (Refresh data) Hs) as Hs'.
  unfold consistent in Hs, Hs'. rewrite Forall_forall in Hs, Hs'.
  destruct (refreshTetrominos_lookup false
              (contributionGrid (step s (Refresh data))) _ _ _ Hi)
    as (p' & Hi' & Hid & Hty & Hx & Hy & Hrot).
  exists p'. split; [exact Hi'|]. split_and!; try done.
  destruct (piece_ok_score _ _ (Hs' p' (list_elem_of_lookup_2 _ _ _ Hi')))
    as (-> & _).
  destruct (piece_ok_score _ _ (Hs p (list_elem_of_lookup_2 _ _ _ Hi)))
    as (-> & _).
  congruence.
Qed.

Lemma step_distinct_and_apart (s : State) (op : Op) :
  consistent s → distinct_and_apart s → op_fresh s op →
  distinct_and_apart (step s op).
Proof.
  intros Hcons [Hnd Hsep] Hfresh.
  destruct op as [type x y now|id x y now|id|id|data].
  - destruct s as [grid prev]. unfold distinct_and_apart.
    cbn [step placedTetrominos contributionGrid op_fresh] in *.
    destruct (dropNew_cases grid prev type x y now)
      as [->|(np & -> & Hid & Hfree)]; [done|].
    assert (∀ q c, q ∈ prev → c ∈ p_absolutePositions np →
                   c ∉ p_absolutePositions q) as Hapart.
    { intros q c Hq Hc Hc'. apply Hfree. by exists q, c. }
    split.
    + rewrite map_app. apply NoDup_app. split_and!; [done| |apply NoDup_singleton].
      intros j Hj Hj'%list_elem_of_singleton. simpl in Hj'. congruence.
    + intros p q [Hp|Hp%list_elem_of_singleton]%elem_of_app
                 [Hq|Hq%list_elem_of_singleton]%elem_of_app Hne c Hc;
        simplify_eq.
      * by apply (Hsep p q).
      * intros Hc'. by apply (Hapart p c).
      * by apply Hapart.
  - destruct s as [grid prev]. unfold distinct_and_apart.
    cbn [step placedTetrominos contributionGrid op_fresh] in *.
    unfold dropMove.
    destruct (list_find _ prev) as [[i t]|] eqn:Hfind; [|done].
    rewrite handlePlacement_eq. cbv zeta.
    destruct (checkCollision _ _ _) eqn:E; [done|].
    apply checkCollision_false in E as [_ Hfree].
    apply replace_by_id; [done..| |done].
    simpl. destruct (Z.eqb_spec id 0) as [->|]; [right; auto|by left].
  - destruct s as [grid prev]. unfold distinct_and_apart.
    cbn [step placedTetrominos contributionGrid op_fresh] in *.
    unfold handleRotate.
    destruct (list_find _ prev) as [[i t]|] eqn:Hfind; [|done].
    apply list_find_Some in Hfind as (Hi & <- & _).
    destruct (tryKicks_spec grid prev i t (Z.rem (p_rotation t + 90) 360)
                kickTranslations)
      as [[_ ->]|(before & d & after & _ & _ & Hd & ->)]; [done|].
    apply checkCollision_false in Hd as [_ Hfree].
    rewrite (insert_as_replace prev i t) by done.
    apply replace_by_id; [done..|by left|done].
  - destruct s as [grid prev]. unfold distinct_and_apart.
    cbn [step placedTetrominos contributionGrid] in *.
    unfold handleDelete. split.
    + eapply sublist_NoDup; [exact Hnd|].
      apply (fmap_sublist p_id), sublist_filter.
    + intros p q [_ Hp]%list_elem_of_filter [_ Hq]%list_elem_of_filter.
      by apply Hsep.
  - pose proof (refresh_positions s data Hcons) as Hpos.
    assert (length (placedTetrominos (step s (Refresh data)))
            = length (placedTetrominos s)) as Hlen
      by apply length_refreshTetrominos.
    assert (∀ p', p' ∈ placedTetrominos (step s (Refresh data)) →
                  ∃ p, p ∈ placedTetrominos s ∧ p_id p' = p_id p
                       ∧ p_absolutePositions p' = p_absolutePositions p)
      as Hback.
    { intros p' [i Hi']%list_elem_of_lookup_1.
      destruct (placedTetrominos s !! i) as [p|] eqn:Hi.
      - destruct (Hpos i p Hi) as (p2 & Hi2 & Hid & _ & _ & _ & _ & Habs).
        exists p. split; [by eapply list_elem_of_lookup_2|].
        rewrite Hi' in Hi2. injection Hi2 as <-. done.
      - apply lookup_ge_None in Hi. apply lookup_lt_Some in Hi'. lia. }
    split.
    + replace (map p_id (placedTetrominos (step s (Refresh data))))
        with (map p_id (placedTetrominos s)); [done|].
      apply list_eq. intros i.
      change (map p_id ?l) with (p_id <$> l). rewrite !list_lookup_fmap.
      destruct (placedTetrominos s !! i) as [p|] eqn:Hi.
      * destruct (Hpos i p Hi) as (p2 & Hi2 & Hid & _).
        rewrite Hi2. simpl. by rewrite Hid.
      * apply lookup_ge_None in Hi.
        rewrite (proj2 (lookup_ge_None _ i)) by lia. done.
    + intros p' q' (p & Hp & Hpid & Hpa)%Hback (q & Hq & Hqid & Hqa)%Hback.
      rewrite Hpid, Hqid, Hpa, Hqa. by apply Hsep.
Qed.

Lemma run_distinct_and_apart (ops : list Op) (s : State) :
  consistent s → distinct_and_apart s → clock_fresh s ops →
  distinct_and_apart (run s ops).
Proof.
  revert s. induction ops as [|op ops IH]; intros s Hc Hd Hf; [done|].
  destruct Hf as [Hop Hf]. cbn [run fold_left]. apply IH.
  - by apply step_consistent.
  - by apply step_distinct_and_apart.
  - done.
Qed.

Lemma clock_fresh_take (n : nat) (ops : list Op) (s : State) :
  clock_fresh s ops → clock_fresh s (take n ops).
Proof.
  revert n s. induction ops as [|op ops IH]; intros [|n] s; try done.
  intros [Hop Hf]. split; [done|]. by apply IH.
Qed.

Lemma initialState_distinct_and_apart : distinct_and_apart initialState.
Proof.
  split; [constructor|]. by intros p q ?%elem_of_nil.
Qed.

(** Without any condition on the clock, pieces with different ids stay
    apart: the collision test of a drop, a move or a rotation looks at
    every piece whose id differs from the id it is given. *)
Lemma replace_separated (prev : list Tetromino) (id : Z) (np : Tetromino) :
  separated prev →
  ¬ overlapsOther (p_absolutePositions np) (Some id) prev →
  separated (map (fun p => if p_id p =? id then np else p) prev).
Proof.
  intros Hsep Hfree.
  assert (∀ q, q ∈ prev → p_id q ≠ id →
               ∀ c, c ∈ p_absolutePositions np →
                    c ∉ p_absolutePositions q) as Hapart.
  { intros q Hq Hne c Hc Hc'. apply Hfree. exists q, c. split_and!; try done.
    simpl. by apply Z.eqb_neq. }
  intros p' q' [p [-> Hp]]%list_elem_of_fmap [q [-> Hq]]%list_elem_of_fmap.
  destruct (Z.eqb_spec (p_id p) id) as [Hpi|Hpi],
           (Z.eqb_spec (p_id q) id) as [Hqi|Hqi]; intros Hne c Hc.
  - done.
  - by apply Hapart.
  - intros Hc'. by apply (Hapart p Hp Hpi c).
  - by apply (Hsep p q).
Qed.

Lemma insert_separated (prev : list Tetromino) (i : nat) (t np : Tetromino) :
  separated prev → prev !! i = Some t → p_id np = p_id t →
  ¬ overlapsOther (p_absolutePositions np) (Some (p_id t)) prev →
  separated (<[i := np]> prev).
Proof.
  intros Hsep Hi Hid Hfree.
  assert (∀ q, q ∈ prev → p_id q ≠ p_id np →
               ∀ c, c ∈ p_absolutePositions np →
                    c ∉ p_absolutePositions q) as Hapart.
  { intros q Hq Hne c Hc Hc'. apply Hfree. exists q, c. split_and!; try done.
    simpl. apply Z.eqb_neq. congruence. }
  assert (∀ q, q ∈ <[i := np]> prev → q = np ∨ q ∈ prev) as Hcases.
  { intros q [j Hj]%list_elem_of_lookup_1.
    apply list_lookup_insert_Some in Hj as [(_ & -> & _)|[_ Hj]];
      [by left|right; by eapply list_elem_of_lookup_2]. }
  intros p q [->|Hp]%Hcases [->|Hq]%Hcases Hne c Hc.
  - done.
  - apply Hapart; [done|congruence|done].
  - intros Hc'. by apply (Hapart p Hp Hne c).
  - by apply (Hsep p q).
Qed.

Lemma step_separated (s : State) (op : Op) :
  consistent s → separated (placedTetrominos s) →
  separated (placedTetrominos (step s op)).
Proof.
  intros Hcons Hsep.
  destruct op as [type x y now|id x y now|id|id|data].
  - destruct s as [grid prev].
    cbn [step placedTetrominos contributionGrid] in *.
    destruct (dropNew_cases grid prev type x y now)
      as [->|(np & -> & Hid & Hfree)]; [done|].
    assert (∀ q c, q ∈ prev → c ∈ p_absolutePositions np →
                   c ∉ p_absolutePositions q) as Hapart.
    { intros q c Hq Hc Hc'. apply Hfree. by exists q, c. }
    intros p q [Hp|Hp%list_elem_of_singleton]%elem_of_app
               [Hq|Hq%list_elem_of_singleton]%elem_of_app Hne c Hc;
      simplify_eq.
    + by apply (Hsep p q).
    + intros Hc'. by apply (Hapart p c).
    + by apply Hapart.
  - destruct s as [grid prev].
    cbn [step placedTetrominos contributionGrid] in *.
    unfold dropMove.
    destruct (list_find _ prev) as [[i t]|] eqn:Hfind; [|done].
    rewrite handlePlacement_eq. cbv zeta.
    destruct (checkCollision _ _ _) eqn:E; [done|].
    apply checkCollision_false in E as [_ Hfree].
    by apply replace_separated.
  - destruct s as [grid prev].
    cbn [step placedTetrominos contributionGrid] in *.
    unfold handleRotate.
    destruct (list_find _ prev) as [[i t]|] eqn:Hfind; [|done].
    apply list_find_Some in Hfind as (Hi & <- & _).
    destruct (tryKicks_spec grid prev i t (Z.rem (p_rotation t + 90) 360)
                kickTranslations)
      as [[_ ->]|(before & d & after & _ & _ & Hd & ->)]; [done|].
    apply checkCollision_false in Hd as [_ Hfree].
    by apply (insert_separated prev i t).
  - destruct s as [grid prev].
    cbn [step placedTetrominos contributionGrid] in *.
    unfold handleDelete.
    intros p q [_ Hp]%list_elem_of_filter [_ Hq]%list_elem_of_filter.
    by apply Hsep.
  - pose proof (refresh_positions s data Hcons) as Hpos.
    assert (length (placedTetrominos (step s (Refresh data)))
            = length (placedTetrominos s)) as Hlen
      by apply length_refreshTetrominos.
    assert (∀ p', p' ∈ placedTetrominos (step s (Refresh data)) →
                  ∃ p, p ∈ placedTetrominos s ∧ p_id p' = p_id p
                       ∧ p_absolutePositions p' = p_absolutePositions p)
      as Hback.
    { intros p' [i Hi']%list_elem_of_lookup_1.
      destruct (placedTetrominos s !! i) as [p|] eqn:Hi.
      - destruct (Hpos i p Hi) as (p2 & Hi2 & Hid & _ & _ & _ & _ & Habs).
        exists p. split; [by eapply list_elem_of_lookup_2|].
        rewrite Hi' in Hi2. injection Hi2 as <-. done.
      - apply lookup_ge_None in Hi. apply lookup_lt_Some in Hi'. lia. }
    intros p' q' (p & Hp & Hpid & Hpa)%Hback (q & Hq & Hqid & Hqa)%Hback.
    rewrite Hpid, Hqid, Hpa, Hqa. by apply Hsep.
Qed.

Lemma run_separated (ops : list Op) (s : State) :
  consistent s → separated (placedTetrominos s) →
  separated (placedTetrominos (run s ops)).
Proof.
  revert s. induction ops as [|op ops IH]; intros s Hc Hs; [done|].
  cbn [run fold_left]. apply IH.
  - by apply step_consistent.
  - by apply step_separated.
Qed.

(** ** Placement invariants *)

Lemma NoDup_absolutePositionsOf type x y rotation :
  right_angle rotation → NoDup (absolutePositionsOf type x y rotation).
Proof.
  intros (_ & Hnd & _)%(right_angle_shape type).
  unfold absolutePositionsOf. apply NoDup_fmap_2_strong; [|done].
  intros [a b] [c d] _ _ [= ? ?]. f_equal; lia.
Qed.

Lemma piece_ok_cells_ok (grid : Grid) (p : Tetromino) :
  piece_ok grid p → cells_ok p.
Proof.
  intros Hp. destruct (piece_ok_score _ _ Hp) as (Ha & _).
  destruct Hp as (Hr & _ & Hin). split_and!.
  - rewrite Ha. apply length_absolutePositionsOf.
  - rewrite Ha. by apply NoDup_absolutePositionsOf.
  - intros x y Hc. rewrite Forall_forall in Hin. apply (Hin _ Hc).
Qed.

Lemma distinct_and_apart_pairwise (pieces : list Tetromino) :
  NoDup (map p_id pieces) → separated pieces → pairwise_disjoint pieces.
Proof.
  intros Hnd Hsep i j p q Hij Hi Hj.
  apply Hsep; eauto using list_elem_of_lookup_2.
  intros Heq. apply Hij.
  apply (NoDup_lookup _ i j (p_id p) Hnd);
    change (map p_id pieces) with (p_id <$> pieces);
    rewrite list_lookup_fmap; [by rewrite Hi|by rewrite Hj, Heq].
Qed.

(** Along every sequence of operations from the initial state, whatever
    the clock returns, each placed piece has exactly 4 distinct cells, all
    inside the 8 by 7 grid. *)
Lemma cells_ok_along (ops : list Op) (n : nat) :
  Forall cells_ok (placedTetrominos (run initialState (take n ops))).
Proof.
  pose proof (run_consistent (take n ops) _ initialState_consistent) as Hc.
  eapply Forall_impl; [exact Hc|]. intros p. apply piece_ok_cells_ok.
Qed.

(** When in addition each clock value read for a new id differs from the
    ids of the pieces then placed, pieces at different positions of the
    collection share no cell. *)
Lemma placement_invariant_fresh_clock (ops : list Op) :
  clock_fresh initialState ops → placement_invariant_along ops.
Proof.
  intros Hfresh n. apply (clock_fresh_take n) in Hfresh.
  pose proof (run_distinct_and_apart (take n ops) _ initialState_consistent
                initialState_distinct_and_apart Hfresh) as [Hnd Hsep].
  split; [apply cells_ok_along|by apply distinct_and_apart_pairwise].
Qed.

(** C5, amended: along every sequence of operations from the initial state
    in which each clock value read for a new id differs from the ids of
    the pieces then placed, the ids of the placed pieces are pairwise
    distinct; and a drop from the palette in such a state either changes
    nothing or appends one piece whose id, the clock value, differs from
    the id of every piece already placed. *)
Theorem ids_distinct_fresh_clock (ops : list Op) :
  clock_fresh initialState ops →
  let s := run initialState ops in
  NoDup (map p_id (placedTetrominos s))
  ∧ ∀ type dropGridX dropGridY now,
      now ∉ map p_id (placedTetrominos s) →
      let s' := step s (Place type dropGridX dropGridY now) in
      placedTetrominos s' = placedTetrominos s
      ∨ ∃ np, placedTetrominos s' = placedTetrominos s ++ [np]
              ∧ p_id np = now
              ∧ ∀ q, q ∈ placedTetrominos s → p_id q ≠ p_id np.
Proof.
  intros Hfresh s.
  pose proof (run_distinct_and_apart ops _ initialState_consistent
                initialState_distinct_and_apart Hfresh) as [Hnd _].
  split; [done|].
  intros type x y now Hnow s'. subst s'. destruct s as [grid prev].
  cbn [step placedTetrominos contributionGrid] in *.
  destruct (dropNew_cases grid prev type x y now)
    as [->|(np & -> & Hid & _)]; [by left|right].
  exists np. split_and!; [done..|].
  intros q Hq Heq. apply Hnow. rewrite <- Hid, <- Heq.
  apply list_elem_of_fmap. by exists q.
Qed.

(** ** Loading the grid *)

Lemma transformContributionsToGrid_fold (contributions : list Contribution) :
  transformContributionsToGrid contributions
  = fold_left (loadStep contributions) (seqZ 0 56)
      (replicate 7 (replicate 8 defaultCell)).
Proof. reflexivity. Qed.

Lemma setCell_shape grid x y cell : grid_shape grid → grid_shape (setCell grid x y cell).
Proof.
  intros [Hlen Hrows]. unfold setCell. split.
  - by rewrite length_alter.
  - apply Forall_alter; [done|]. intros row _ Hrow.
    by rewrite length_insert.
Qed.

Lemma cellAt_setCell grid x y cell x' y' :
  grid_shape grid → 0 <= x < 8 → 0 <= y < 7 → 0 <= x' → 0 <= y' →
  cellAt (setCell grid x y cell) x' y'
  = if decide (x = x' ∧ y = y') then Some cell else cellAt grid x' y'.
Proof.
  intros [Hlen Hrows] Hx Hy Hx' Hy'. unfold cellAt, setCell.
  rewrite list_lookup_alter.
  destruct (decide (Z.to_nat y = Z.to_nat y')) as [Hyy|Hyy].
  - assert (y = y') as <- by lia.
    destruct (grid !! Z.to_nat y) as [row|] eqn:Hrow.
    2:{ apply lookup_ge_None in Hrow. lia. }
    simpl. rewrite list_lookup_insert.
    rewrite Forall_forall in Hrows.
    pose proof (Hrows row (list_elem_of_lookup_2 _ _ _ Hrow)) as Hr.
    repeat case_decide; try done; exfalso; lia.
  - case_decide; [exfalso; lia|done].
Qed.

Lemma loadStep_shape contributions grid i :
  grid_shape grid → grid_shape (loadStep contributions grid i).
Proof.
  intros Hg. unfold loadStep. destruct (contributions !! Z.to_nat i); [|done].
  destruct (_ && _); [|done]. by apply setCell_shape.
Qed.

Lemma load_loop (contributions : list Contribution) (n : nat) :
  (n <= 56)%nat →
  grid_shape (fold_left (loadStep contributions) (seqZ 0 (Z.of_nat n))
                (replicate 7 (replicate 8 defaultCell)))
  ∧ ∀ i, 0 <= i < 56 →
      cellAt (fold_left (loadStep contributions) (seqZ 0 (Z.of_nat n))
                (replicate 7 (replicate 8 defaultCell)))
        (i / 7) (i `mod` 7)
      = Some (if i <? Z.of_nat n then loadedCell contributions i
              else mkCell 0 0 None).
Proof.
  induction n as [|n IH]; intros Hn.
  - split.
    + split; [done|]. by repeat constructor.
    + intros i Hi. rewrite seqZ_nil by lia. cbn [fold_left].
      destruct (Z.ltb_spec i (Z.of_nat 0)); [exfalso; lia|].
      assert (0 <= i / 7 < 8) as Hix
        by (split; [apply Z.div_pos|apply Z.div_lt_upper_bound]; lia).
      assert (0 <= i `mod` 7 < 7) as Hiy by (apply Z.mod_pos_bound; lia).
      unfold cellAt.
      rewrite (lookup_replicate_2 7 _ (Z.to_nat (i `mod` 7))) by lia.
      cbv [mbind option_bind]. rewrite lookup_replicate_2; [done|lia].
  - destruct IH as [Hshape Hcells]; [lia|].
    rewrite seqZ_S, fold_left_app. cbn [fold_left]. rewrite Z.add_0_l.
    set (g := fold_left _ _ _) in *.
    split; [by apply loadStep_shape|].
    intros i Hi. specialize (Hcells i Hi).
    assert (0 <= i / 7 < 8) as Hix
      by (split; [apply Z.div_pos|apply Z.div_lt_upper_bound]; lia).
    assert (0 <= i `mod` 7 < 7) as Hiy by (apply Z.mod_pos_bound; lia).
    assert (0 <= Z.of_nat n / 7 < 8) as Hnx
      by (split; [apply Z.div_pos|apply Z.div_lt_upper_bound]; lia).
    assert (0 <= Z.of_nat n `mod` 7 < 7) as Hny
      by (apply Z.mod_pos_bound; lia).
    assert (Z.rem (Z.of_nat n) 7 = Z.of_nat n `mod` 7) as Hrem
      by (apply Z.rem_mod_nonneg; lia).
    unfold loadStep, GRID_HEIGHT, GRID_WIDTH. rewrite Hrem.
    destruct (decide (i = Z.of_nat n)) as [->|Hne].
    + destruct (Z.ltb_spec (Z.of_nat n) (Z.of_nat (S n))); [|exfalso; lia].
      unfold loadedCell. rewrite Nat2Z.id.
      destruct (contributions !! n) as [r|] eqn:Hr.
      * destruct (_ && _) eqn:E2; [|exfalso; lia].
        rewrite cellAt_setCell by (done || lia).
        by rewrite decide_True.
      * rewrite Hcells. by rewrite Z.ltb_irrefl.
    + assert (cellAt g (i / 7) (i `mod` 7)
              = Some (if i <? Z.of_nat (S n) then loadedCell contributions i
                      else mkCell 0 0 None)) as Hold.
      { rewrite Hcells.
        destruct (Z.ltb_spec i (Z.of_nat n)), (Z.ltb_spec i (Z.of_nat (S n)));
          try done; exfalso; lia. }
      destruct (contributions !! Z.to_nat (Z.of_nat n)) as [r|]; [|done].
      destruct (_ && _); [|done].
      rewrite cellAt_setCell by (done || lia).
      rewrite decide_False; [done|].
      intros [Hx Hy]. apply Hne.
      rewrite (Z.div_mod i 7), (Z.div_mod (Z.of_nat n) 7) by lia.
      by rewrite Hx, Hy.
Qed.

Lemma fold_left_ext_in {A B} (f g : A → B → A) (l : list B) (a : A) :
  (∀ x b, b ∈ l → f x b = g x b) → fold_left f l a = fold_left g l a.
Proof.
  revert a. induction l as [|b l IH]; intros a H; [done|]. simpl.
  rewrite H by by left. apply IH. intros x c Hc. apply H. by right.
Qed.

(** C4, amended: the grid has 7 rows of 8 cells; record i < 56 is stored at
    x = i div 7, y = i mod 7 with its count, the level of its count and its
    date; a cell whose index has no record holds the default count 0,
    level 0 and no date; records from index 56 on are ignored. *)
Theorem transformContributionsToGrid_column_major
    (contributions : list Contribution) :
  let grid := transformContributionsToGrid contributions in
  length grid = 7%nat
  ∧ Forall (fun row => length row = 8%nat) grid
  ∧ (∀ i, 0 <= i < 56 →
       cellAt grid (i / 7) (i `mod` 7)
       = Some (match contributions !! Z.to_nat i with
               | Some contribution =>
                   mkCell (contrib_count contribution)
                     (getContributionLevel (contrib_count contribution))
                     (Some (contrib_date contribution))
               | None => mkCell 0 0 None
               end))
  ∧ grid = transformContributionsToGrid (take 56 contributions).
Proof.
  intros grid. subst grid. rewrite !transformContributionsToGrid_fold.
  destruct (load_loop contributions 56 (le_n _)) as [[Hlen Hrows] Hcells].
  change (Z.of_nat 56) with 56 in *.
  split_and!; [done..| |].
  - intros i Hi. rewrite (Hcells i Hi).
    by destruct (Z.ltb_spec i 56); [|exfalso; lia].
  - apply fold_left_ext_in. intros g i [Hi1 Hi2]%elem_of_seqZ.
    unfold loadStep. by rewrite lookup_take_lt by lia.
Qed.

(** ** Concrete runs *)

Lemma sampleOps_fresh : clock_fresh initialState sampleOps.
Proof.
  unfold sampleOps. cbn [clock_fresh op_fresh]. split_and!; try done.
  - by_evaluation.
  - by_evaluation.
Qed.

Example sampleOps_placement_invariant :
  placement_invariant_along sampleOps.
Proof. exact (placement_invariant_fresh_clock sampleOps sampleOps_fresh). Qed.

(** With the clock returning the same value twice the two pieces get the
    same id, the collision test of the rotation skips both, and the turned
    I piece lands on cells (2,1) and (2,2) of the O piece. *)
Lemma sameClock_overlap :
  ¬ placement_invariant_along sameClockOps.
Proof.
  intros H. destruct (H 4%nat) as [_ Hdis].
  apply (Hdis 0%nat 1%nat
           (mkTetromino 1000 I_ 0 1 90 [(2, 0); (2, 1); (2, 2); (2, 3)] 400
              (map (fun c => mkBlock (fst c) (snd c) 1 100 0)
                 [(2, 0); (2, 1); (2, 2); (2, 3)]))
           (mkTetromino 1000 O_ 2 1 0 [(2, 1); (3, 1); (2, 2); (3, 2)] 400
              (map (fun c => mkBlock (fst c) (snd c) 1 100 0)
                 [(2, 1); (3, 1); (2, 2); (3, 2)]))
           ltac:(done) ltac:(vm_compute; reflexivity)
           ltac:(vm_compute; reflexivity) (2, 1)).
  - cbn [p_absolutePositions]. by_evaluation.
  - cbn [p_absolutePositions]. by_evaluation.
Qed.

(** C1: the invariant holds along every sequence of operations as far as
    the cells of each piece and pieces with different ids go: after every
    operation each placed piece has exactly 4 distinct cells inside the
    8 by 7 grid, and two pieces with different ids share no cell. It fails
    for two pieces that carry the same id: after a refresh, a drop of an I
    piece on (1,0) and of an O piece on (2,1) that both read the clock
    value 1000, and a rotation of id 1000, the two placed pieces both
    cover the cells (2,1) and (2,2). *)
Theorem placement_invariant_shared_id :
  (∀ (ops : list Op) (n : nat),
     let pieces := placedTetrominos (run initialState (take n ops)) in
     Forall cells_ok pieces ∧ separated pieces)
  ∧ map (fun p => (p_id p, p_type p, p_absolutePositions p))
      (placedTetrominos (run initialState sameClockOps))
    = [(1000, I_, [(2, 0); (2, 1); (2, 2); (2, 3)]);
       (1000, O_, [(2, 1); (3, 1); (2, 2); (3, 2)])]
  ∧ ¬ placement_invariant_along sameClockOps.
Proof.
  split_and!.
  - intros ops n pieces. subst pieces. split; [apply cells_ok_along|].
    apply run_separated; [apply initialState_consistent|].
    by intros p q ?%elem_of_nil.
  - vm_compute. reflexivity.
  - exact sameClock_overlap.
Qed.

(** The same two drops give two pieces with id 1000. *)
Lemma sameClock_duplicate_id :
  ¬ NoDup (map p_id (placedTetrominos
                       (run initialState
                          [Place I_ 1 0 1000; Place O_ 2 1 1000]))).
Proof.
  assert (map p_id (placedTetrominos
                      (run initialState
                         [Place I_ 1 0 1000; Place O_ 2 1 1000]))
          = [1000; 1000]) as -> by (vm_compute; reflexivity).
  intros [Hin _]%NoDup_cons. apply Hin. by left.
Qed.

Lemma ids_distinct_fresh_clock_witness :
  NoDup (map p_id (placedTetrominos (run initialState sampleOps))).
Proof.
  exact (proj1 (ids_distinct_fresh_clock sampleOps sampleOps_fresh)).
Defined.

(** After one record the cell of index 1 holds level 0, not the level 1 of
    count 0. *)
Lemma oneRecord_default_level :
  ¬ load_as_specified oneRecord.
Proof.
  intros H. specialize (H 1 ltac:(lia)). vm_compute in H. discriminate.
Qed.

Lemma transformContributionsToGrid_column_major_witness :
  cellAt (transformContributionsToGrid oneRecord) (1 / 7) (1 `mod` 7)
  = Some (mkCell 0 0 None).
Proof.
  destruct (transformContributionsToGrid_column_major oneRecord)
    as (_ & _ & H & _).
  apply (H 1). lia.
Defined.

(** Cells that pass the bounds test and fail the collision test overlap
    another piece. *)
Lemma overlap_by_test cells currentId prev :
  existsb out_of_grid cells = false →
  checkCollision cells currentId prev = true →
  overlapsOther cells currentId prev.
Proof.
  intros Hin [(c & Hc & Hout)|H]%checkCollision_true; [|done].
  apply not_true_iff_false in Hin. destruct Hin.
  apply existsb_exists. exists c. split; [by apply list_elem_of_In|done].
Qed.

(** Rotating the I piece of [twoPieces]: the offset (0,0) lands on the O
    piece, the offset (-1,0) is free and is the one committed. *)
Lemma handleRotate_first_free_kick_witness :
  p_absolutePositions
    <$> handleRotate (contributionGrid twoPieces) 1000
          (placedTetrominos twoPieces) !! 0%nat
  = Some [(1, 0); (1, 1); (1, 2); (1, 3)].
Proof.
  assert (list_find (fun t => p_id t = 1000) (placedTetrominos twoPieces)
          = Some (0%nat, pieceAt (contributionGrid twoPieces) 1000 I_ 0 0 0))
    as Hfind by (vm_compute; reflexivity).
  destruct (handleRotate_first_free_kick (contributionGrid twoPieces) 1000
              (placedTetrominos twoPieces) 0
              (pieceAt (contributionGrid twoPieces) 1000 I_ 0 0 0)
              Hfind ltac:(by left)) as [_ H].
  rewrite (H 1%nat (-1, 0)).
  - vm_compute. reflexivity.
  - reflexivity.
  - intros [|j] d' Hj Hd'; [|exfalso; lia]. injection Hd' as <-.
    apply overlap_by_test; vm_compute; reflexivity.
  - apply (checkCollision_false _ (Some 1000) (placedTetrominos twoPieces)).
    vm_compute. reflexivity.
Defined.

Lemma rejected_operations_change_nothing_witness :
  step blockedState (Place T_ 1 0 4000) = blockedState
  ∧ step blockedState (Move 3000 1 0 4000) = blockedState
  ∧ step blockedState (Rotate 1000) = blockedState
  ∧ step blockedState (Delete 4000) = blockedState.
Proof.
  destruct (rejected_operations_change_nothing blockedState)
    as (Hplace & Hmove & Hrotate & Hdelete).
  split_and!.
  - apply Hplace. apply overlap_by_test; vm_compute; reflexivity.
  - eapply Hmove; [vm_compute; reflexivity|].
    apply overlap_by_test; vm_compute; reflexivity.
  - eapply Hrotate; [vm_compute; reflexivity|].
    intros d Hd. unfold kickTranslations in Hd.
    repeat (apply elem_of_cons in Hd as [->|Hd];
            [apply overlap_by_test; vm_compute; reflexivity|]).
    by apply elem_of_nil in Hd.
  - apply Hdelete. by_evaluation.
Defined.

(** On a grid whose 56 counts are 0 every cell has level 1: an I piece
    dropped on cell (1,0) is anchored at (0,0), covers row 0 from x = 0 to
    x = 3 and scores 400. *)
Example all_zero_I_piece :
  let s := run initialState [Refresh allZeroData; Place I_ 1 0 1000] in
  map (fun p => (p_x p, p_y p, p_rotation p, p_absolutePositions p,
                 p_scorePotential p)) (placedTetrominos s)
  = [(0, 0, 0, [(0, 0); (1, 0); (2, 0); (3, 0)], 400)]
  ∧ potentialScore (placedTetrominos s) = 400.
Proof. vm_compute. split; reflexivity. Qed.

(** Turning it once gives rotation 90 on column 2 and the same score. *)
Example all_zero_I_piece_rotated :
  let s :=
    run initialState [Refresh allZeroData; Place I_ 1 0 1000; Rotate 1000] in
  map (fun p => (p_x p, p_y p, p_rotation p, p_absolutePositions p,
                 p_scorePotential p)) (placedTetrominos s)
  = [(0, 1, 90, [(2, 0); (2, 1); (2, 2); (2, 3)], 400)]
  ∧ potentialScore (placedTetrominos s) = 400.
Proof. vm_compute. split; reflexivity. Qed.

(** A record with count -1 gives its cell level 0: the piece over it
    scores 300. *)
Example negative_count_cell :
  let data :=
    mkContribution (-1) "2025-01-01"
    :: replicate 55 (mkContribution 0 "2025-01-02") in
  let s := run initialState [Refresh data; Place I_ 1 0 1000] in
  map (fun p => map b_score (p_blockDetails p)) (placedTetrominos s)
  = [[0; 100; 100; 100]]
  ∧ potentialScore (placedTetrominos s) = 300.
Proof. vm_compute. split; reflexivity. Qed.

(** Before any grid is loaded, and for an anchor far outside the grid, the
    details are still computed: four blocks of level 0. *)
Example details_without_grid :
  calculateTetrominoDetails [] (Some T_) (-3) 10 270
  = mkDetails [(-3, 11); (-2, 12); (-2, 11); (-2, 10)] 0
      [mkBlock (-3) 11 0 0 (-1); mkBlock (-2) 12 0 0 (-1);
       mkBlock (-2) 11 0 0 (-1); mkBlock (-2) 10 0 0 (-1)].
Proof. vm_compute. reflexivity. Qed.

(** * Further properties *)

(** ** Rotation *)

Lemma js_round_inject (q : Q) (n : Z) : (q == inject_Z n)%Q → js_round q = n.
Proof.
  intros H. unfold js_round. rewrite H.
  unfold Qfloor, Qplus, inject_Z. cbn [Qnum Qden].
  symmetry. apply (Z.div_unique _ _ _ 1); lia.
Qed.

Lemma inject_Z_sub (a b : Z) : (inject_Z a - inject_Z b == inject_Z (a - b))%Q.
Proof. unfold Qminus. by rewrite <- inject_Z_opp, <- inject_Z_plus. Qed.

Lemma rotateShape_turn (shape : list Point) (pivot : Q * Q) (s d angle : Z) :
  pivot_aligned pivot s d → right_angle angle →
  rotateShape shape pivot angle = map (quarterTurn s d angle) shape.
Proof.
  destruct pivot as [px py]. intros [Hs Hd] Hangle. cbn [fst snd] in Hs, Hd.
  assert (px + px == inject_Z (s + d))%Q as H2x.
  { rewrite inject_Z_plus, <- Hs, <- Hd. ring. }
  assert (py + py == inject_Z (s - d))%Q as H2y.
  { rewrite <- inject_Z_sub, <- Hs, <- Hd. ring. }
  unfold rotateShape. apply map_ext. intros [x y].
  destruct Hangle as [->|[->|[->| ->]]];
    cbn [round_cos round_sin quarterTurn fst snd]; f_equal;
    apply js_round_inject.
  - simpl inject_Z. ring.
  - simpl inject_Z. ring.
  - transitivity ((px + py) - inject_Z y)%Q; [simpl inject_Z; ring|].
    by rewrite Hs, inject_Z_sub.
  - transitivity (inject_Z x - (px - py))%Q; [simpl inject_Z; ring|].
    by rewrite Hd, inject_Z_sub.
  - transitivity ((px + px) - inject_Z x)%Q; [simpl inject_Z; ring|].
    by rewrite H2x, inject_Z_sub.
  - transitivity ((py + py) - inject_Z y)%Q; [simpl inject_Z; ring|].
    by rewrite H2y, inject_Z_sub.
  - transitivity (inject_Z y + (px - py))%Q; [simpl inject_Z; ring|].
    by rewrite Hd, <- inject_Z_plus.
  - transitivity ((px + py) - inject_Z x)%Q; [simpl inject_Z; ring|].
    by rewrite Hs, inject_Z_sub.
Qed.

(** The pivots of the catalog: sum and difference of the coordinates. *)
Lemma catalog_pivot_aligned (type : TetrominoType) :
  pivot_aligned (TETROMINO_PIVOTS type) (pivotSum type) (pivotDifference type).
Proof. destruct type; split; reflexivity. Qed.

(** X1: about the pivot of a piece type, whose coordinates have the
    integer sum s and the integer difference d, rotateShape is exact on
    integer points of magnitude up to 2^50 (the range on which the
    arithmetic of the source does not round): 0 degrees is the identity,
    90 sends (x,y) to (s-y, x-d), 180 to (s+d-x, s-d-y) and 270 to
    (y+d, s-x); the final rounding never moves a point. *)
Theorem rotateShape_quarter_turns (type : TetrominoType) (shape : list Point) :
  Forall small_point shape →
  let pivot := TETROMINO_PIVOTS type in
  let s := pivotSum type in
  let d := pivotDifference type in
  rotateShape shape pivot 0 = shape
  ∧ rotateShape shape pivot 90 = map (fun '(x, y) => (s - y, x - d)) shape
  ∧ rotateShape shape pivot 180
    = map (fun '(x, y) => (s + d - x, s - d - y)) shape
  ∧ rotateShape shape pivot 270 = map (fun '(x, y) => (y + d, s - x)) shape.
Proof.
  intros _ pivot s d.
  pose proof (catalog_pivot_aligned type) as H. fold pivot s d in H.
  split_and!.
  - rewrite (rotateShape_turn _ _ s d 0 H) by by left.
    cbn [quarterTurn]. apply map_id.
  - rewrite (rotateShape_turn _ _ s d 90 H) by (right; by left).
    apply map_ext. by intros [x y].
  - rewrite (rotateShape_turn _ _ s d 180 H) by (right; right; by left).
    apply map_ext. by intros [x y].
  - rewrite (rotateShape_turn _ _ s d 270 H) by (right; right; by right).
    apply map_ext. by intros [x y].
Qed.

(** The shapes of the catalog are in that range. *)
Lemma catalog_shape_small (type : TetrominoType) :
  Forall small_point (TETROMINO_SHAPES type).
Proof.
  destruct type; repeat constructor; vm_compute; discriminate.
Qed.

Lemma rotateShape_quarter_turns_witness :
  rotateShape (TETROMINO_SHAPES I_) (TETROMINO_PIVOTS I_) 90
  = map (fun '(x, y) => (2 - y, x - 1)) (TETROMINO_SHAPES I_).
Proof.
  assert (Forall small_point (TETROMINO_SHAPES I_)) as Hsmall.
  { repeat constructor; vm_compute; discriminate. }
  exact (proj1 (proj2 (rotateShape_quarter_turns I_ (TETROMINO_SHAPES I_)
                         Hsmall))).
Defined.

(** X2: on integer points of magnitude up to 2^50, turns about the pivot
    of a piece type add up: turning by a and then by b is turning by
    (a + b) mod 360, for right angles a and b; so four quarter turns give
    the shape back. *)
Theorem rotateShape_compose (type : TetrominoType) (shape : list Point)
    (a b : Z) :
  Forall small_point shape → right_angle a → right_angle b →
  let pivot := TETROMINO_PIVOTS type in
  rotateShape (rotateShape shape pivot a) pivot b
  = rotateShape shape pivot ((a + b) `mod` 360)
  ∧ rotateShape
      (rotateShape (rotateShape (rotateShape shape pivot 90) pivot 90)
         pivot 90) pivot 90
    = shape.
Proof.
  intros _ Ha Hb pivot.
  pose proof (catalog_pivot_aligned type) as H. fold pivot in H.
  set (s := pivotSum type) in H. set (d := pivotDifference type) in H.
  split.
  - assert (right_angle ((a + b) `mod` 360)) as Hab.
    { destruct Ha as [->|[->|[->| ->]]], Hb as [->|[->|[->| ->]]];
        vm_compute; tauto. }
    rewrite !(rotateShape_turn _ _ s d) by done.
    rewrite map_map. apply map_ext. intros [x y].
    destruct Ha as [->|[->|[->| ->]]], Hb as [->|[->|[->| ->]]];
      match goal with
      | |- context [(?a + ?b) `mod` 360] =>
          let v := eval vm_compute in ((a + b) `mod` 360) in
          change ((a + b) `mod` 360) with v
      end;
      cbn [quarterTurn fst snd]; f_equal; lia.
  - rewrite !(rotateShape_turn _ _ s d 90 H) by (right; by left).
    rewrite !map_map. rewrite <- (map_id shape) at 2.
    apply map_ext. intros [x y]. cbn [quarterTurn fst snd]. f_equal; lia.
Qed.

Lemma rotateShape_compose_witness :
  rotateShape (rotateShape (TETROMINO_SHAPES O_) (TETROMINO_PIVOTS O_) 270)
    (TETROMINO_PIVOTS O_) 180
  = rotateShape (TETROMINO_SHAPES O_) (TETROMINO_PIVOTS O_)
      ((270 + 180) `mod` 360).
Proof.
  apply (rotateShape_compose O_ (TETROMINO_SHAPES O_) 270 180).
  - repeat constructor; vm_compute; discriminate.
  - right; right; by right.
  - right; right; by left.
Defined.

Lemma quarterTurn_inj (s d angle : Z) (c c' : Point) :
  quarterTurn s d angle c = quarterTurn s d angle c' → c = c'.
Proof.
  destruct c as [x y], c' as [x' y']. unfold quarterTurn.
  repeat (case_match; try (intros [= ? ?]; f_equal; lia)).
Qed.

(** X3: on integer points of magnitude up to 2^50, a right-angle turn
    about the pivot of a piece type keeps the number of points and keeps
    distinct points distinct. *)
Theorem rotateShape_NoDup (type : TetrominoType) (shape : list Point)
    (angle : Z) :
  Forall small_point shape → right_angle angle → NoDup shape →
  length (rotateShape shape (TETROMINO_PIVOTS type) angle) = length shape
  ∧ NoDup (rotateShape shape (TETROMINO_PIVOTS type) angle).
Proof.
  intros _ Hangle Hnd. split; [apply length_rotateShape|].
  rewrite (rotateShape_turn _ _ _ _ angle (catalog_pivot_aligned type) Hangle).
  apply NoDup_fmap_2_strong; [|done].
  intros c c' _ _. apply quarterTurn_inj.
Qed.

Lemma rotateShape_NoDup_witness :
  NoDup (rotateShape [(0, 0); (5, -2); (1, 1)] (TETROMINO_PIVOTS I_) 270).
Proof.
  apply (rotateShape_NoDup I_ [(0, 0); (5, -2); (1, 1)] 270).
  - repeat constructor; vm_compute; discriminate.
  - right; right; by right.
  - by_evaluation.
Defined.

(** ** Adjustment and collision *)

Lemma list_min_in (xs : list Z) : xs ≠ [] → list_min xs ∈ xs.
Proof.
  destruct xs as [|a r]; [done|]. intros _. simpl.
  revert a. induction r as [|b r IH]; intros a; simpl; [by left|].
  specialize (IH (Z.min a b)).
  apply elem_of_cons in IH as [->|IH]; [|right; by right].
  destruct (Z.min_spec a b) as [[_ ->]|[_ ->]]; [by left|right; by left].
Qed.

Lemma list_max_in (xs : list Z) : xs ≠ [] → list_max xs ∈ xs.
Proof.
  destruct xs as [|a r]; [done|]. intros _. simpl.
  revert a. induction r as [|b r IH]; intros a; simpl; [by left|].
  specialize (IH (Z.max a b)).
  apply elem_of_cons in IH as [->|IH]; [|right; by right].
  destruct (Z.max_spec a b) as [[_ ->]|[_ ->]]; [right; by left|by left].
Qed.

Lemma relativeShapeOf_nonempty type rotation : relativeShapeOf type rotation ≠ [].
Proof.
  intros H. pose proof (length_rotateShape (TETROMINO_SHAPES type)
                          (TETROMINO_PIVOTS type) rotation) as Hlen.
  fold (relativeShapeOf type rotation) in Hlen. rewrite H in Hlen.
  by destruct type.
Qed.

(** The four extremes of a relative shape are attained by its points. *)
Lemma box_extremes_attained type rotation x y :
  Forall in_grid (absolutePositionsOf type x y rotation) →
  0 <= x + list_min (map fst (relativeShapeOf type rotation))
  ∧ x + list_max (map fst (relativeShapeOf type rotation)) < 8
  ∧ 0 <= y + list_min (map snd (relativeShapeOf type rotation))
  ∧ y + list_max (map snd (relativeShapeOf type rotation)) < 7.
Proof.
  intros Hin. rewrite Forall_forall in Hin.
  pose proof (relativeShapeOf_nonempty type rotation) as Hne.
  assert (∀ rx ry, (rx, ry) ∈ relativeShapeOf type rotation →
                   0 <= x + rx < 8 ∧ 0 <= y + ry < 7) as Hpt.
  { intros rx ry Hr. apply (Hin (x + rx, y + ry)).
    unfold absolutePositionsOf. apply list_elem_of_fmap. by exists (rx, ry). }
  assert (map fst (relativeShapeOf type rotation) ≠ []) as Hnx
    by (destruct (relativeShapeOf type rotation); done).
  assert (map snd (relativeShapeOf type rotation) ≠ []) as Hny
    by (destruct (relativeShapeOf type rotation); done).
  split_and!.
  - apply list_min_in, list_elem_of_fmap in Hnx as ([rx ry] & -> & Hr).
    apply (Hpt _ _ Hr).
  - apply list_max_in, list_elem_of_fmap in Hnx as ([rx ry] & -> & Hr).
    apply (Hpt _ _ Hr).
  - apply list_min_in, list_elem_of_fmap in Hny as ([rx ry] & -> & Hr).
    apply (Hpt _ _ Hr).
  - apply list_max_in, list_elem_of_fmap in Hny as ([rx ry] & -> & Hr).
    apply (Hpt _ _ Hr).
Qed.

(** X4: a requested anchor under which all four cells of the piece are
    already inside the grid is returned unchanged. *)
Theorem getAdjustedDropPosition_unchanged_when_inside
    (type : TetrominoType) (rotation dropX dropY : Z) :
  Forall in_grid (absolutePositionsOf type dropX dropY rotation) →
  getAdjustedDropPosition type rotation dropX dropY = (dropX, dropY).
Proof.
  intros (H1 & H2 & H3 & H4)%box_extremes_attained.
  unfold getAdjustedDropPosition. fold (relativeShapeOf type rotation).
  cbv zeta. unfold GRID_WIDTH, GRID_HEIGHT.
  repeat match goal with
    | |- context [0 <? ?e] => destruct (Z.ltb_spec 0 e); [exfalso; lia|]
    end.
  done.
Qed.

Lemma getAdjustedDropPosition_unchanged_when_inside_witness :
  getAdjustedDropPosition L_ 180 3 2 = (3, 2).
Proof.
  apply getAdjustedDropPosition_unchanged_when_inside.
  apply Forall_forall. intros c Hc.
  apply out_of_grid_false. revert c Hc. apply Forall_forall.
  by_evaluation.
Defined.

Lemma adjusted_clamp_form (type : TetrominoType) (rotation dropX dropY : Z) :
  right_angle rotation →
  getAdjustedDropPosition type rotation dropX dropY
  = (Z.max (- list_min (map fst (relativeShapeOf type rotation)))
       (Z.min dropX
          (GRID_WIDTH - 1 - list_max (map fst (relativeShapeOf type rotation)))),
     Z.max (- list_min (map snd (relativeShapeOf type rotation)))
       (Z.min dropY
          (GRID_HEIGHT - 1
           - list_max (map snd (relativeShapeOf type rotation))))).
Proof.
  intros Hr.
  destruct (right_angle_shape type rotation Hr) as (_ & _ & Hw & Hh).
  unfold boxWidth, boxHeight in Hw, Hh.
  unfold getAdjustedDropPosition. fold (relativeShapeOf type rotation).
  cbv zeta. unfold GRID_WIDTH, GRID_HEIGHT.
  f_equal;
    repeat match goal with
      | |- context [0 <? ?e] => destruct (Z.ltb_spec 0 e)
      end; lia.
Qed.

(** X5: for a right-angle rotation and requested coordinates of magnitude
    up to 2^52, the anchor the adjustment returns in double arithmetic is
    the one of the exact form, which is the requested anchor clamped, on
    each axis, to the interval of anchors that keep the bounding box
    inside the grid; adjusting an adjusted anchor changes nothing. *)
Theorem getAdjustedDropPosition_clamps
    (type : TetrominoType) (rotation dropX dropY : Z) :
  right_angle rotation →
  Z.abs dropX <= 2 ^ 52 → Z.abs dropY <= 2 ^ 52 →
  let shape := relativeShapeOf type rotation in
  let a := getAdjustedDropPosition_double type rotation dropX dropY in
  a = getAdjustedDropPosition type rotation dropX dropY
  ∧ fst a = Z.max (- list_min (map fst shape))
              (Z.min dropX (GRID_WIDTH - 1 - list_max (map fst shape)))
  ∧ snd a = Z.max (- list_min (map snd shape))
              (Z.min dropY (GRID_HEIGHT - 1 - list_max (map snd shape)))
  ∧ getAdjustedDropPosition_double type rotation (fst a) (snd a) = a.
Proof.
  intros Hr Hx Hy shape a. subst a shape.
  change (2 ^ 52) with 4503599627370496 in Hx, Hy.
  destruct (right_angle_shape type rotation Hr) as (_ & _ & Hw & Hh).
  destruct (right_angle_extremes type rotation Hr) as (H1 & H2 & H3 & H4).
  unfold boxWidth, boxHeight, GRID_WIDTH, GRID_HEIGHT in *.
  rewrite (getAdjustedDropPosition_double_exact type rotation dropX dropY)
    by (done || (change (2 ^ 53) with 9007199254740992; lia)).
  rewrite (adjusted_clamp_form type rotation dropX) by done.
  cbn [fst snd]. unfold GRID_WIDTH, GRID_HEIGHT.
  split_and!; [done..|].
  rewrite getAdjustedDropPosition_double_exact
    by (done || (change (2 ^ 53) with 9007199254740992; lia)).
  rewrite (adjusted_clamp_form type rotation (Z.max _ _)) by done.
  unfold GRID_WIDTH, GRID_HEIGHT. f_equal; lia.
Qed.

Lemma getAdjustedDropPosition_clamps_witness :
  getAdjustedDropPosition_double I_ 90 (-9) 40 = (-2, 4)
  ∧ getAdjustedDropPosition_double I_ 90 (-2) 4 = (-2, 4).
Proof.
  destruct (getAdjustedDropPosition_clamps I_ 90 (-9) 40)
    as (_ & Hx & Hy & Hidem);
    [right; by left|vm_compute; discriminate|vm_compute; discriminate|].
  assert (getAdjustedDropPosition_double I_ 90 (-9) 40 = (-2, 4)) as Ha.
  { rewrite (surjective_pairing (getAdjustedDropPosition_double I_ 90 (-9) 40)).
    rewrite Hx, Hy. vm_compute. reflexivity. }
  split; [exact Ha|]. rewrite Ha in Hidem. exact Hidem.
Defined.

(** X6: the collision test answers true exactly when some cell to check
    lies outside the 8 by 7 grid or is a cell of a placed piece whose id
    is not the current piece's id. *)
Theorem checkCollision_spec (cells : list Point) (currentId : option Z)
    (prev : list Tetromino) :
  checkCollision cells currentId prev = true
  ↔ (∃ x y, (x, y) ∈ cells ∧ (x < 0 ∨ 8 <= x ∨ y < 0 ∨ 7 <= y))
    ∨ (∃ p c, p ∈ prev ∧ currentId ≠ Some (p_id p)
              ∧ c ∈ cells ∧ c ∈ p_absolutePositions p).
Proof.
  rewrite checkCollision_true. unfold overlapsOther.
  assert (∀ p, is_current currentId p = false ↔ currentId ≠ Some (p_id p))
    as Hcur.
  { intros p. destruct currentId as [i|]; simpl; [|done].
    rewrite Z.eqb_neq. split; intros H ?; apply H; congruence. }
  split.
  - intros [(c & Hc & Hout)|(p & c & Hp & Hi & Hc & Hd)].
    + left. destruct c as [x y]. exists x, y. split; [done|].
      unfold out_of_grid, GRID_WIDTH, GRID_HEIGHT in Hout. lia.
    + right. exists p, c. by rewrite <- Hcur.
  - intros [(x & y & Hc & Hout)|(p & c & Hp & Hi & Hc & Hd)].
    + left. exists (x, y). split; [done|].
      unfold out_of_grid, GRID_WIDTH, GRID_HEIGHT. lia.
    + right. exists p, c. by rewrite Hcur.
Qed.

(** ** Effects of the handlers on the piece list *)

Lemma potentialScore_app (l k : list Tetromino) :
  potentialScore (l ++ k) = potentialScore l + potentialScore k.
Proof.
  rewrite !potentialScore_sum, map_app. unfold sumZ.
  induction (map p_scorePotential l) as [|a r IH]; simpl; lia.
Qed.

Lemma potentialScore_filter (P : Tetromino → Prop) `{∀ p, Decision (P p)}
    (l : list Tetromino) :
  potentialScore l
  = potentialScore (filter P l) + potentialScore (filter (fun p => ¬ P p) l).
Proof.
  rewrite !potentialScore_sum.
  induction l as [|p l IH]; [done|].
  rewrite !filter_cons. simpl. destruct (decide (P p)) as [Hp|Hp].
  - rewrite decide_False by tauto. simpl. lia.
  - rewrite decide_True by done. simpl. lia.
Qed.

Lemma filter_none (P : Tetromino → Prop) `{∀ p, Decision (P p)}
    (l : list Tetromino) :
  (∀ r, r ∈ l → ¬ P r) → filter P l = [].
Proof.
  induction l as [|r l IH]; [done|]. intros Hl.
  rewrite filter_cons_False by (apply Hl; by left).
  apply IH. intros r' Hr'. apply Hl. by right.
Qed.

Lemma filter_id_single (prev : list Tetromino) (p : Tetromino) :
  NoDup (map p_id prev) → p ∈ prev →
  filter (fun q => p_id q = p_id p) prev = [p].
Proof.
  induction prev as [|q prev IH]; [by intros _ ?%elem_of_nil|].
  simpl. intros [Hq Hnd]%NoDup_cons Hp. rewrite filter_cons.
  assert (∀ r, r ∈ prev → p_id r ≠ p_id q) as Hrest.
  { intros r Hr Heq. apply Hq. rewrite <- Heq.
    apply list_elem_of_fmap. by exists r. }
  apply elem_of_cons in Hp as [->|Hp].
  - rewrite decide_True by done. f_equal. by apply filter_none.
  - rewrite decide_False; [by apply IH|].
    intros Heq. by apply (Hrest p Hp).
Qed.

Lemma handleDelete_complement (id : Z) (prev : list Tetromino) :
  handleDelete id prev = filter (fun p => ¬ p_id p = id) prev.
Proof. reflexivity. Qed.

(** X7: deleting an id keeps exactly the pieces with another id, in their
    order, and lowers the total score by the scores of the pieces that
    carried the id; afterwards the id is absent. *)
Theorem handleDelete_removes (id : Z) (prev : list Tetromino) :
  (∀ p, p ∈ handleDelete id prev ↔ p ∈ prev ∧ p_id p ≠ id)
  ∧ sublist (handleDelete id prev) prev
  ∧ (id ∉ map p_id (handleDelete id prev))
  ∧ potentialScore (handleDelete id prev)
    = potentialScore prev
      - sumZ (map p_scorePotential (filter (fun p => p_id p = id) prev)).
Proof.
  split_and!.
  - intros p. unfold handleDelete. rewrite list_elem_of_filter. tauto.
  - apply sublist_filter.
  - intros (p & Hid & [Hne _]%list_elem_of_filter)%list_elem_of_fmap.
    by apply Hne.
  - rewrite (potentialScore_filter (fun p => p_id p = id) prev).
    rewrite <- handleDelete_complement, <- potentialScore_sum. lia.
Qed.

(** X8: when the ids are distinct, deleting a placed piece removes that
    one piece: the list gets one shorter and the total score drops by
    exactly that piece's score. *)
Theorem handleDelete_one_piece (prev : list Tetromino) (i : nat) (p : Tetromino) :
  NoDup (map p_id prev) → prev !! i = Some p →
  S (length (handleDelete (p_id p) prev)) = length prev
  ∧ potentialScore (handleDelete (p_id p) prev)
    = potentialScore prev - p_scorePotential p.
Proof.
  intros Hnd Hi%list_elem_of_lookup_2.
  pose proof (filter_id_single prev p Hnd Hi) as Hone. split.
  - pose proof (filter_app_complement (fun q => p_id q = p_id p) prev) as Hperm.
    apply Permutation_length in Hperm.
    rewrite length_app, Hone in Hperm. rewrite handleDelete_complement.
    simpl in Hperm. lia.
  - rewrite (potentialScore_filter (fun q => p_id q = p_id p) prev), Hone.
    rewrite <- handleDelete_complement.
    unfold potentialScore at 2. simpl. lia.
Qed.

Lemma handleDelete_one_piece_witness :
  S (length (handleDelete 1000 (placedTetrominos twoPieces)))
  = length (placedTetrominos twoPieces)
  ∧ potentialScore (handleDelete 1000 (placedTetrominos twoPieces))
    = potentialScore (placedTetrominos twoPieces) - 400.
Proof.
  apply (handleDelete_one_piece (placedTetrominos twoPieces) 0
           (pieceAt (contributionGrid twoPieces) 1000 I_ 0 0 0)).
  - by_evaluation.
  - vm_compute. reflexivity.
Defined.

(** X9: a drop from the palette followed by the deletion of the id it
    read from the clock gives the piece list back, whether the drop was
    accepted or not, provided no placed piece had that id. *)
Theorem dropNew_then_delete (grid : Grid) (prev : list Tetromino)
    (type : TetrominoType) (dropGridX dropGridY now : Z) :
  now ∉ map p_id prev →
  handleDelete now (dropNew grid prev type dropGridX dropGridY now) = prev.
Proof.
  intros Hnow.
  destruct (dropNew_cases grid prev type dropGridX dropGridY now)
    as [->|(np & -> & Hid & _)].
  - by apply handleDelete_absent.
  - unfold handleDelete. rewrite filter_app.
    rewrite filter_cons_False, filter_nil by (intros H; by apply H).
    rewrite app_nil_r. by apply handleDelete_absent.
Qed.

Lemma dropNew_then_delete_witness :
  handleDelete 5000
    (dropNew (contributionGrid twoPieces) (placedTetrominos twoPieces)
       T_ 5 5 5000)
  = placedTetrominos twoPieces.
Proof. apply dropNew_then_delete. by_evaluation. Defined.

(** X10: a move leaves the number of pieces and every piece with another
    id as they were, at the same index; a piece that carried the id is
    afterwards either itself or a piece of the same type and rotation
    as the first piece with that id, and it keeps the id unless the id
    is 0. *)
Theorem dropMove_frame (grid : Grid) (prev : list Tetromino)
    (id dropGridX dropGridY now : Z) :
  let prev' := dropMove grid prev id dropGridX dropGridY now in
  length prev' = length prev
  ∧ (∀ i p, prev !! i = Some p → p_id p ≠ id → prev' !! i = Some p)
  ∧ (∀ i t, list_find (fun t => p_id t = id) prev = Some (i, t) →
       ∀ j p, prev !! j = Some p → p_id p = id →
         ∃ p', prev' !! j = Some p'
               ∧ (prev' = prev
                  ∨ (p_type p' = p_type t ∧ p_rotation p' = p_rotation t
                     ∧ (id ≠ 0 → p_id p' = id)))).
Proof.
  intros prev'. subst prev'. unfold dropMove.
  destruct (list_find _ prev) as [[i0 t0]|] eqn:Hfind.
  2:{ split_and!; [done..|]. intros ? ? [=]. }
  rewrite handlePlacement_eq. cbv zeta.
  destruct (checkCollision _ _ _).
  { split_and!; [done..|]. intros i t [= <- <-] j p Hj Hid. eauto. }
  change (map ?f prev) with (f <$> prev). split_and!.
  - apply length_fmap.
  - intros i p Hi Hne. rewrite list_lookup_fmap, Hi. simpl.
    by destruct (Z.eqb_spec (p_id p) id).
  - intros i t [= <- <-] j p Hj Hid. eexists. split.
    + rewrite list_lookup_fmap, Hj. simpl.
      destruct (Z.eqb_spec (p_id p) id); [done|by destruct n].
    + right. cbn [pieceAt p_type p_rotation p_id placementId].
      split_and!; [done..|]. intros Hne.
      by destruct (Z.eqb_spec id 0).
Qed.

Lemma handleRotate_cases (grid : Grid) (id : Z) (prev : list Tetromino)
    (i : nat) (t : Tetromino) :
  list_find (fun t => p_id t = id) prev = Some (i, t) →
  handleRotate grid id prev = prev
  ∨ ∃ d, handleRotate grid id prev
         = <[i := kickedPiece grid t (Z.rem (p_rotation t + 90) 360) d]> prev.
Proof.
  intros Hfind. unfold handleRotate. rewrite Hfind.
  destruct (tryKicks_spec grid prev i t (Z.rem (p_rotation t + 90) 360)
              kickTranslations)
    as [[_ ->]|(before & d & after & _ & _ & _ & ->)]; eauto.
Qed.

(** X11: a rotation leaves the number of pieces and every piece at another
    index as they were; the first piece with the id is either untouched
    (then the whole list is) or replaced by a piece of the same id and
    type whose rotation is the old one plus 90 modulo 360. *)
Theorem handleRotate_frame (grid : Grid) (id : Z) (prev : list Tetromino)
    (i : nat) (t : Tetromino) :
  list_find (fun t => p_id t = id) prev = Some (i, t) →
  right_angle (p_rotation t) →
  let prev' := handleRotate grid id prev in
  length prev' = length prev
  ∧ (∀ j, j ≠ i → prev' !! j = prev !! j)
  ∧ (prev' = prev
     ∨ ∃ t', prev' !! i = Some t' ∧ p_id t' = id ∧ p_type t' = p_type t
             ∧ p_rotation t' = (p_rotation t + 90) `mod` 360).
Proof.
  intros Hfind Hr prev'. subst prev'.
  destruct (handleRotate_cases grid id prev i t Hfind) as [->|[d ->]].
  { split_and!; [done..|by left]. }
  apply list_find_Some in Hfind as (Hi & Hid & _).
  split_and!.
  - apply length_insert.
  - intros j Hj. by apply list_lookup_insert_ne.
  - right. eexists. split.
    + apply list_lookup_insert_eq. by eapply lookup_lt_Some.
    + cbn [kickedPiece pieceAt p_id p_type p_rotation].
      split_and!; [done..|]. by destruct (right_angle_next _ Hr).
Qed.

Lemma handleRotate_frame_witness :
  length (handleRotate (contributionGrid twoPieces) 1000
            (placedTetrominos twoPieces))
  = length (placedTetrominos twoPieces).
Proof.
  eapply (handleRotate_frame (contributionGrid twoPieces) 1000
            (placedTetrominos twoPieces) 0
            (pieceAt (contributionGrid twoPieces) 1000 I_ 0 0 0)).
  - vm_compute. reflexivity.
  - by left.
Defined.

(** X12: a move or a rotation of an id that no placed piece carries
    changes nothing. *)
Theorem absent_id_operations (s : State) (id dropGridX dropGridY now : Z) :
  id ∉ map p_id (placedTetrominos s) →
  step s (Move id dropGridX dropGridY now) = s
  ∧ step s (Rotate id) = s.
Proof.
  intros Hid. destruct s as [grid prev].
  cbn [step contributionGrid placedTetrominos] in *.
  assert (list_find (fun t => p_id t = id) prev = None) as Hnone.
  { apply list_find_None, Forall_forall. intros p Hp Heq. apply Hid.
    apply list_elem_of_fmap. by exists p. }
  unfold dropMove, handleRotate. by rewrite Hnone.
Qed.

Lemma absent_id_operations_witness :
  step twoPieces (Move 7 3 3 9000) = twoPieces
  ∧ step twoPieces (Rotate 7) = twoPieces.
Proof. apply absent_id_operations. by_evaluation. Defined.

Lemma handleRotate_success (grid : Grid) (id : Z) (prev : list Tetromino)
    (i : nat) (t : Tetromino) :
  list_find (fun t => p_id t = id) prev = Some (i, t) →
  right_angle (p_rotation t) →
  handleRotate grid id prev ≠ prev →
  ∃ t', list_find (fun t => p_id t = id) (handleRotate grid id prev)
        = Some (i, t')
        ∧ p_rotation t' = (p_rotation t + 90) `mod` 360
        ∧ right_angle (p_rotation t').
Proof.
  intros Hfind Hr Hchanged.
  destruct (handleRotate_cases grid id prev i t Hfind) as [Heq|[d Heq]];
    [done|].
  rewrite Heq. apply list_find_Some in Hfind as (Hi & Hid & Hmin).
  destruct (right_angle_next _ Hr) as [Hrem Hr'].
  eexists. split; [|split].
  - apply list_find_Some. split_and!.
    + apply list_lookup_insert_eq. by eapply lookup_lt_Some.
    + done.
    + intros j y Hj Hlt. rewrite list_lookup_insert_ne in Hj by lia.
      by apply (Hmin j).
  - cbn [kickedPiece pieceAt p_rotation]. done.
  - cbn [kickedPiece pieceAt p_rotation]. done.
Qed.

(** X13: four rotations of the same piece, each of which is carried out,
    bring its rotation back to the value it started from, wherever the
    wall kicks have moved it. *)
Theorem four_rotations_restore_rotation
    (grid : Grid) (id : Z) (prev : list Tetromino) (i : nat) (t : Tetromino) :
  list_find (fun t => p_id t = id) prev = Some (i, t) →
  right_angle (p_rotation t) →
  let prev1 := handleRotate grid id prev in
  let prev2 := handleRotate grid id prev1 in
  let prev3 := handleRotate grid id prev2 in
  let prev4 := handleRotate grid id prev3 in
  prev1 ≠ prev → prev2 ≠ prev1 → prev3 ≠ prev2 → prev4 ≠ prev3 →
  ∃ t4, prev4 !! i = Some t4 ∧ p_id t4 = id
        ∧ p_rotation t4 = p_rotation t.
Proof.
  intros Hfind Hr prev1 prev2 prev3 prev4 H1 H2 H3 H4.
  destruct (handleRotate_success grid id prev i t Hfind Hr H1)
    as (t1 & Hf1 & Hrot1 & Hr1).
  destruct (handleRotate_success grid id prev1 i t1 Hf1 Hr1 H2)
    as (t2 & Hf2 & Hrot2 & Hr2).
  destruct (handleRotate_success grid id prev2 i t2 Hf2 Hr2 H3)
    as (t3 & Hf3 & Hrot3 & Hr3).
  destruct (handleRotate_success grid id prev3 i t3 Hf3 Hr3 H4)
    as (t4 & Hf4 & Hrot4 & Hr4).
  apply list_find_Some in Hf4 as (Hi4 & Hid4 & _).
  exists t4. split_and!; [done..|].
  rewrite Hrot4, Hrot3, Hrot2, Hrot1.
  destruct Hr as [->|[->|[->| ->]]]; reflexivity.
Qed.

Lemma four_rotations_restore_rotation_witness :
  ∃ t4,
    handleRotate [] 1000
      (handleRotate [] 1000
         (handleRotate [] 1000
            (handleRotate [] 1000 (placedTetrominos onePiece)))) !! 0%nat
    = Some t4
    ∧ p_id t4 = 1000 ∧ p_rotation t4 = 0.
Proof.
  apply (four_rotations_restore_rotation [] 1000 (placedTetrominos onePiece)
           0 (pieceAt [] 1000 T_ 2 2 0)).
  - vm_compute. reflexivity.
  - by left.
  - intros H. vm_compute in H. discriminate.
  - intros H. vm_compute in H. discriminate.
  - intros H. vm_compute in H. discriminate.
  - intros H. vm_compute in H. discriminate.
Defined.

(** ** Refresh, levels and scores *)

Lemma refreshTetrominos_idem (grid : Grid) (prev : list Tetromino) :
  refreshTetrominos false grid (refreshTetrominos false grid prev)
  = refreshTetrominos false grid prev.
Proof.
  rewrite (refreshTetrominos_eq false grid (refreshTetrominos _ _ _)).
  rewrite length_refreshTetrominos, (refreshTetrominos_eq false grid prev).
  destruct (negb false && _ && _); [|done].
  rewrite map_map. by apply map_ext.
Qed.

(** X14: applying the same fetched data twice is the same as applying it
    once, whatever the state. *)
Theorem refresh_idempotent (s : State) (data : list Contribution) :
  step (step s (Refresh data)) (Refresh data) = step s (Refresh data).
Proof.
  destruct s as [grid prev]. cbn [step contributionGrid placedTetrominos].
  destruct data as [|r data]; by rewrite refreshTetrominos_idem.
Qed.

Lemma refreshTetrominos_consistent (grid : Grid) (prev : list Tetromino) :
  Forall (piece_ok grid) prev → refreshTetrominos false grid prev = prev.
Proof.
  intros Hok. rewrite refreshTetrominos_eq. destruct (_ && _ && _); [|done].
  rewrite <- (map_id prev) at 2. apply map_ext_Forall.
  eapply Forall_impl; [exact Hok|]. by intros p (_ & <- & _).
Qed.

(** X15: a fetch that returns an empty array changes neither the grid nor
    any piece, in every state the component can reach. *)
Theorem refresh_empty_changes_nothing (ops : list Op) :
  step (run initialState ops) (Refresh []) = run initialState ops.
Proof.
  pose proof (run_consistent ops _ initialState_consistent) as Hc.
  destruct (run initialState ops) as [grid prev].
  cbn [step contributionGrid placedTetrominos]. f_equal.
  by apply refreshTetrominos_consistent.
Qed.

Lemma getContributionLevel_range (count : Z) :
  0 <= getContributionLevel count <= 5.
Proof. unfold getContributionLevel. repeat case_match; lia. Qed.

(** X16: the level never decreases when the count grows, and it always
    lies between 0 and 5. *)
Theorem getContributionLevel_monotone (count count' : Z) :
  count <= count' →
  getContributionLevel count <= getContributionLevel count'
  ∧ 0 <= getContributionLevel count <= 5.
Proof.
  intros Hle. split; [|apply getContributionLevel_range].
  unfold getContributionLevel.
  repeat match goal with
    | |- context [?a <? ?b] => destruct (Z.ltb_spec a b)
    | |- context [?a <=? ?b] => destruct (Z.leb_spec a b)
    end; lia.
Qed.

Lemma getContributionLevel_monotone_witness :
  getContributionLevel 4 <= getContributionLevel 17.
Proof. apply (getContributionLevel_monotone 4 17). lia. Defined.

Lemma loadStep_levels_ok contributions grid i :
  levels_ok grid → levels_ok (loadStep contributions grid i).
Proof.
  intros Hg. unfold loadStep. cbv zeta.
  destruct (contributions !! Z.to_nat i) as [r|]; [|done].
  destruct (_ && _); [|done]. unfold setCell, levels_ok.
  apply Forall_alter; [done|]. intros row _ Hrow.
  destruct (decide (Z.to_nat (i / GRID_HEIGHT) < length row)%nat).
  - apply Forall_insert; [done|]. apply getContributionLevel_range.
  - by rewrite list_insert_ge by lia.
Qed.

Lemma transformContributionsToGrid_levels_ok contributions :
  levels_ok (transformContributionsToGrid contributions).
Proof.
  unfold transformContributionsToGrid. cbv zeta.
  assert (levels_ok (replicate (Z.to_nat GRID_HEIGHT)
                       (replicate (Z.to_nat GRID_WIDTH) defaultCell))) as H0.
  { apply Forall_replicate, Forall_replicate. simpl. lia. }
  revert H0. generalize (replicate (Z.to_nat GRID_HEIGHT)
                           (replicate (Z.to_nat GRID_WIDTH) defaultCell)).
  induction (seqZ 0 (GRID_WIDTH * GRID_HEIGHT)) as [|i l IH];
    intros g Hg; cbn [fold_left]; [done|].
  by apply IH, loadStep_levels_ok.
Qed.

Lemma run_levels_ok (ops : list Op) (s : State) :
  levels_ok (contributionGrid s) → levels_ok (contributionGrid (run s ops)).
Proof.
  revert s. induction ops as [|op ops IH]; intros s Hs; [done|].
  cbn [run fold_left]. apply IH.
  destruct op as [| | | |data]; try done. cbn [step contributionGrid].
  destruct data; [done|apply transformContributionsToGrid_levels_ok].
Qed.

Lemma levelAt_range (grid : Grid) (ax ay : Z) :
  levels_ok grid → 0 <= levelAt grid ax ay <= 5.
Proof.
  intros Hg. unfold levelAt. destruct (_ && _); [|lia].
  destruct (grid !! Z.to_nat ay) as [row|] eqn:Hrow; [|lia].
  destruct (row !! Z.to_nat ax) as [cell|] eqn:Hcell; [|lia].
  unfold levels_ok in Hg. rewrite Forall_forall in Hg.
  pose proof (Hg row (list_elem_of_lookup_2 _ _ _ Hrow)) as Hr.
  rewrite Forall_forall in Hr.
  apply (Hr cell (list_elem_of_lookup_2 _ _ _ Hcell)).
Qed.

Lemma sumZ_bounds (f : Point → Z) (lo hi : Z) (cells : list Point) :
  (∀ c, lo <= f c <= hi) →
  lo * Z.of_nat (length cells) <= sumZ (map f cells)
  <= hi * Z.of_nat (length cells).
Proof.
  intros Hf. induction cells as [|c cells IH]; simpl; [lia|].
  specialize (Hf c). lia.
Qed.

(** X17: in every state the component can reach, the score of each placed
    piece lies between 0 and 2000 and the total on screen between 0 and
    2000 times the number of pieces. *)
Theorem scores_bounded (ops : list Op) :
  let s := run initialState ops in
  Forall (fun p => 0 <= p_scorePotential p <= 2000) (placedTetrominos s)
  ∧ 0 <= potentialScore (placedTetrominos s)
    <= 2000 * Z.of_nat (length (placedTetrominos s)).
Proof.
  intros s.
  pose proof (run_consistent ops _ initialState_consistent) as Hc.
  pose proof (run_levels_ok ops initialState ltac:(constructor)) as Hl.
  fold s in Hc, Hl. unfold consistent in Hc.
  assert (Forall (fun p => 0 <= p_scorePotential p <= 2000)
            (placedTetrominos s)) as Hall.
  { eapply Forall_impl; [exact Hc|]. intros p Hp.
    destruct (piece_ok_score _ _ Hp) as (Ha & -> & _).
    pose proof (sumZ_bounds (cellScore (contributionGrid s)) 0 500
                  (p_absolutePositions p)) as Hb.
    rewrite Ha, length_absolutePositionsOf in Hb. rewrite Ha.
    apply Hb. intros c. unfold cellScore, getScoreFromContributionLevel.
    pose proof (levelAt_range _ (fst c) (snd c) Hl). lia. }
  split; [done|]. rewrite potentialScore_sum.
  clear Hc. revert Hall. generalize (placedTetrominos s). intros l Hall.
  induction Hall as [|p l Hp _ IH]; [done|].
  cbn [map sumZ foldr length]. fold (sumZ (map p_scorePotential l)).
  rewrite Nat2Z.inj_succ. lia.
Qed.

Lemma loaded_cellAt (contributions : list Contribution) (i : Z) :
  0 <= i < 56 →
  cellAt (transformContributionsToGrid contributions) (i / 7) (i `mod` 7)
  = Some (loadedCell contributions i).
Proof.
  intros Hi. rewrite transformContributionsToGrid_fold.
  destruct (load_loop contributions 56 (le_n _)) as [_ Hcells].
  change (Z.of_nat 56) with 56 in *.
  rewrite (Hcells i Hi). by destruct (Z.ltb_spec i 56); [|exfalso; lia].
Qed.

Lemma levelAt_cellAt (grid : Grid) (x y : Z) :
  0 <= x < 8 → 0 <= y < 7 → (0 < length grid)%nat →
  levelAt grid x y
  = match cellAt grid x y with Some cell => c_level cell | None => 0 end.
Proof.
  intros Hx Hy Hlen. unfold levelAt, cellAt, GRID_WIDTH, GRID_HEIGHT.
  replace ((0 <=? y) && (y <? 7) && (0 <=? x) && (x <? 8)
           && (0 <? Z.of_nat (length grid))) with true
    by (symmetry; rewrite !andb_true_iff, !Z.leb_le, !Z.ltb_lt; lia).
  by destruct (grid !! Z.to_nat y) as [row|].
Qed.

(** X18: reading a loaded grid gives back the records: for a cell (x,y) of
    the grid, the level the score computation reads is the level of the
    count of record 7x + y, and 0 when the feed has no such record. *)
Theorem levelAt_loaded_grid (contributions : list Contribution) (x y : Z) :
  0 <= x < 8 → 0 <= y < 7 →
  levelAt (transformContributionsToGrid contributions) x y
  = match contributions !! Z.to_nat (7 * x + y) with
    | Some contribution =>
        getContributionLevel (contrib_count contribution)
    | None => 0
    end.
Proof.
  intros Hx Hy.
  pose proof (loaded_cellAt contributions (7 * x + y) ltac:(lia)) as Hcell.
  assert ((7 * x + y) / 7 = x) as Hdiv
    by (symmetry; apply (Z.div_unique _ _ _ y); lia).
  assert ((7 * x + y) `mod` 7 = y) as Hmod
    by (symmetry; apply (Z.mod_unique _ _ x); lia).
  rewrite Hdiv, Hmod in Hcell.
  rewrite levelAt_cellAt, Hcell;
    [|done..|rewrite length_transformContributionsToGrid; lia].
  unfold loadedCell. by destruct (contributions !! Z.to_nat (7 * x + y)).
Qed.

Lemma levelAt_loaded_grid_witness :
  levelAt (transformContributionsToGrid oneRecord) 0 0 = 2
  ∧ levelAt (transformContributionsToGrid oneRecord) 3 4 = 0.
Proof.
  split.
  - exact (levelAt_loaded_grid oneRecord 0 0 ltac:(lia) ltac:(lia)).
  - exact (levelAt_loaded_grid oneRecord 3 4 ltac:(lia) ltac:(lia)).
Defined.

(** X19: the colour of a grid cell whose level comes from a count is the
    dark background exactly when the count is negative; for a count of 0
    or more it is the entry of the S palette at index level - 1. *)
Theorem getGrassColorFromLevel_of_count (count : Z) :
  (getGrassColorFromLevel (getContributionLevel count) = UI_darkBackground
   ↔ count < 0)
  ∧ (0 <= count →
     TETROMINO_COLORS S_ !! Z.to_nat (getContributionLevel count - 1)
     = Some (getGrassColorFromLevel (getContributionLevel count))).
Proof.
  unfold getContributionLevel.
  repeat match goal with
    | |- context [?a <? ?b] => destruct (Z.ltb_spec a b)
    | |- context [?a <=? ?b] => destruct (Z.leb_spec a b)
    end;
    (split; [split|]; intros Hh;
     first [reflexivity | lia | exfalso; lia
           | vm_compute in Hh; discriminate]).
Qed.

(** ** Export and rendering *)

Lemma orString_nonempty (s : option string) (fallback : string) :
  fallback ≠ EmptyString → orString s fallback ≠ EmptyString.
Proof.
  intros Hf. unfold orString. destruct s as [s|]; [|done].
  destruct (String.eqb_spec s EmptyString); done.
Qed.

Lemma block_positions (grid : Grid) (cells : list Point) :
  map (fun pos : Z * Z * Z => (pos.1.1, pos.1.2))
    (map (fun block => (b_x block, b_y block, b_score block))
       (map (blockAt grid) cells)) = cells.
Proof.
  induction cells as [|[x y] cells IH]; [done|]. simpl. by rewrite IH.
Qed.

Lemma block_scores (grid : Grid) (cells : list Point) :
  map snd (map (fun block => (b_x block, b_y block, b_score block))
             (map (blockAt grid) cells))
  = map (cellScore grid) cells.
Proof.
  induction cells as [|[x y] cells IH]; [done|]. simpl. by rewrite IH.
Qed.

(** X20: in every state the component can reach, the export has one entry
    per placed piece, in order, with the piece's type and right-angle
    rotation, its four cells as positions, and a scorePotential that is
    the sum of the position scores; the start date is never empty when
    the fallback date is not. *)
Theorem tetrominosToSave_consistent (ops : list Op) (today : string) :
  let s := run initialState ops in
  let payloads :=
    tetrominosToSave (contributionGrid s) today (placedTetrominos s) in
  length payloads = length (placedTetrominos s)
  ∧ ∀ (i : nat) (pl : TetrominoPlacementPayload),
      payloads !! i = Some pl →
      ∃ p, placedTetrominos s !! i = Some p
           ∧ pl_type pl = p_type p
           ∧ pl_rotation pl = p_rotation p
           ∧ right_angle (pl_rotation pl)
           ∧ map (fun pos : Z * Z * Z => (pos.1.1, pos.1.2)) (pl_positions pl)
             = p_absolutePositions p
           ∧ length (pl_positions pl) = 4%nat
           ∧ sumZ (map snd (pl_positions pl)) = pl_scorePotential pl
           ∧ (today ≠ EmptyString → pl_startDate pl ≠ EmptyString).
Proof.
  intros s payloads. subst payloads.
  pose proof (run_consistent ops _ initialState_consistent) as Hc.
  fold s in Hc. unfold consistent in Hc. rewrite Forall_forall in Hc.
  unfold tetrominosToSave. split; [apply length_map|].
  intros i pl Hi. change (map ?f ?l !! i) with ((f <$> l) !! i) in Hi.
  rewrite list_lookup_fmap in Hi.
  destruct (placedTetrominos s !! i) as [p|] eqn:Hp; [|done].
  injection Hi as <-. exists p. split; [done|].
  pose proof (Hc p (list_elem_of_lookup_2 _ _ _ Hp)) as Hok.
  destruct (piece_ok_score _ _ Hok) as (Ha & Hsc & Hb).
  cbn [pl_type pl_rotation pl_positions pl_scorePotential pl_startDate].
  split_and!; try done.
  - by destruct Hok.
  - rewrite Hb. apply block_positions.
  - rewrite length_map, Hb, length_map, Ha. apply length_absolutePositionsOf.
  - by rewrite Hb, block_scores, Hsc.
  - apply orString_nonempty.
Qed.

Lemma box_of_cells_in_grid (pos : list Point) :
  pos ≠ [] → Forall in_grid pos →
  0 <= list_min (map fst pos) ∧ list_min (map fst pos) <= list_max (map fst pos)
  ∧ list_max (map fst pos) < 8
  ∧ 0 <= list_min (map snd pos) ∧ list_min (map snd pos) <= list_max (map snd pos)
  ∧ list_max (map snd pos) < 7.
Proof.
  intros Hne Hin. rewrite Forall_forall in Hin.
  assert (map fst pos ≠ []) as Hnx by (by destruct pos).
  assert (map snd pos ≠ []) as Hny by (by destruct pos).
  pose proof (list_min_in _ Hnx) as Hminx.
  pose proof (list_max_in _ Hnx) as Hmaxx.
  pose proof (list_min_in _ Hny) as Hminy.
  pose proof (list_max_in _ Hny) as Hmaxy.
  pose proof (list_min_le _ _ Hmaxx). pose proof (list_min_le _ _ Hmaxy).
  apply list_elem_of_fmap in Hminx as (c1 & E1 & H1%Hin).
  apply list_elem_of_fmap in Hmaxx as (c2 & E2 & H2%Hin).
  apply list_elem_of_fmap in Hminy as (c3 & E3 & H3%Hin).
  apply list_elem_of_fmap in Hmaxy as (c4 & E4 & H4%Hin).
  unfold in_grid, GRID_WIDTH, GRID_HEIGHT in *. lia.
Qed.

(** X21: in every state the component can reach, every placed piece is
    drawn: its box starts inside the grid area, is at least one cell wide
    and high, and ends within the 8 by 7 cells of 36 pixels; each of its
    blocks lies inside that box. *)
Theorem renderBox_inside_grid (ops : list Op) (p : Tetromino) :
  p ∈ placedTetrominos (run initialState ops) →
  ∃ leftPx topPx widthPx heightPx,
    renderBox (p_absolutePositions p)
    = Some (leftPx, topPx, widthPx, heightPx)
    ∧ 0 <= leftPx ∧ 0 <= topPx
    ∧ CELL_PX_SIZE <= widthPx ∧ CELL_PX_SIZE <= heightPx
    ∧ leftPx + widthPx <= GRID_WIDTH * CELL_PX_SIZE
    ∧ topPx + heightPx <= GRID_HEIGHT * CELL_PX_SIZE
    ∧ ∀ block, block ∈ p_blockDetails p →
        0 <= fst (blockOffset (p_absolutePositions p) block)
          <= widthPx - CELL_PX_SIZE
        ∧ 0 <= snd (blockOffset (p_absolutePositions p) block)
            <= heightPx - CELL_PX_SIZE.
Proof.
  intros Hp.
  pose proof (run_consistent ops _ initialState_consistent) as Hc.
  unfold consistent in Hc. rewrite Forall_forall in Hc.
  pose proof (Hc p Hp) as Hok.
  destruct (piece_ok_score _ _ Hok) as (Ha & _ & Hb).
  destruct Hok as (_ & _ & Hin).
  assert (p_absolutePositions p ≠ []) as Hne.
  { intros H. pose proof (length_absolutePositionsOf (p_type p) (p_x p)
                            (p_y p) (p_rotation p)) as Hlen.
    rewrite <- Ha, H in Hlen. done. }
  destruct (box_of_cells_in_grid _ Hne Hin) as (H1 & H2 & H3 & H4 & H5 & H6).
  unfold renderBox, blockOffset.
  destruct (p_absolutePositions p) as [|c0 cells] eqn:Hcells; [done|].
  rewrite <- Hcells in *. cbv zeta.
  set (minX := list_min (map fst (p_absolutePositions p))) in *.
  set (maxX := list_max (map fst (p_absolutePositions p))) in *.
  set (minY := list_min (map snd (p_absolutePositions p))) in *.
  set (maxY := list_max (map snd (p_absolutePositions p))) in *.
  unfold CELL_PX_SIZE, GRID_WIDTH, GRID_HEIGHT.
  destruct (Z.ltb_spec ((maxX - minX + 1) * 36) 0); [exfalso; lia|].
  destruct (Z.ltb_spec ((maxY - minY + 1) * 36) 0); [exfalso; lia|].
  cbn [orb]. do 4 eexists. split; [reflexivity|].
  split_and!; try lia.
  intros block Hblock. rewrite Hb in Hblock.
  apply list_elem_of_fmap in Hblock as ([x y] & -> & Hxy).
  cbn [blockAt b_x b_y fst snd].
  assert (minX <= x <= maxX).
  { split; [apply list_min_le|apply list_max_ge];
      apply list_elem_of_fmap; by exists (x, y). }
  assert (minY <= y <= maxY).
  { split; [apply list_min_le|apply list_max_ge];
      apply list_elem_of_fmap; by exists (x, y). }
  lia.
Qed.

Lemma renderBox_inside_grid_witness :
  ∃ leftPx topPx widthPx heightPx,
    renderBox [(1, 0); (1, 1); (1, 2); (1, 3)]
    = Some (leftPx, topPx, widthPx, heightPx)
    ∧ 0 <= leftPx ∧ 0 <= topPx
    ∧ leftPx + widthPx <= 288 ∧ topPx + heightPx <= 252.
Proof.
  destruct (renderBox_inside_grid sampleOps
              (pieceAt (contributionGrid twoPieces) 1000 I_ (-1) 1 90))
    as (l & t & w & h & Hbox & Hl & Ht & _ & _ & Hw & Hh & _).
  - eapply (list_elem_of_lookup_2 _ 0%nat). vm_compute. reflexivity.
  - exists l, t, w, h. split; [exact Hbox|].
    unfold GRID_WIDTH, GRID_HEIGHT, CELL_PX_SIZE in *. lia.
Defined.

Lemma length_TETROMINO_COLORS (type : TetrominoType) :
  length (TETROMINO_COLORS type) = 5%nat.
Proof. by destruct type. Qed.

(** X22: in every state the component can reach, every block of a placed
    piece has a level from 0 to 5 and the score 100 times the level; a
    block of level 0 is drawn in the dark background colour and a block of
    level 1 to 5 in the entry level - 1 of its piece type's palette. *)
Theorem blockColor_of_level (ops : list Op) (p : Tetromino)
    (block : BlockDetail) :
  p ∈ placedTetrominos (run initialState ops) →
  block ∈ p_blockDetails p →
  0 <= b_level block <= 5
  ∧ b_score block = 100 * b_level block
  ∧ (b_level block = 0 → blockColor (p_type p) block = UI_darkBackground)
  ∧ (0 < b_level block →
     TETROMINO_COLORS (p_type p) !! Z.to_nat (b_level block - 1)
     = Some (blockColor (p_type p) block)).
Proof.
  intros Hp Hblock.
  pose proof (run_consistent ops _ initialState_consistent) as Hc.
  pose proof (run_levels_ok ops initialState ltac:(constructor)) as Hl.
  unfold consistent in Hc. rewrite Forall_forall in Hc.
  destruct (piece_ok_score _ _ (Hc p Hp)) as (_ & _ & Hb).
  rewrite Hb in Hblock.
  apply list_elem_of_fmap in Hblock as ([x y] & -> & _).
  pose proof (levelAt_range _ x y Hl) as Hrange.
  unfold blockColor, jsIndex.
  cbn [blockAt b_level b_score b_colorIndex].
  set (level := levelAt _ x y) in *.
  unfold getScoreFromContributionLevel.
  split_and!; [lia..| |].
  - intros ->. reflexivity.
  - intros Hpos. destruct (Z.ltb_spec 0 level); [|exfalso; lia].
    destruct (Z.ltb_spec (level - 1) 0); [exfalso; lia|].
    destruct (TETROMINO_COLORS (p_type p) !! Z.to_nat (level - 1)) eqn:E;
      [done|].
    apply lookup_ge_None in E. rewrite length_TETROMINO_COLORS in E. lia.
Qed.

Lemma blockColor_of_level_witness :
  blockColor I_ (mkBlock 0 0 1 100 0) = "#5BE3B6".
Proof.
  destruct (blockColor_of_level [Refresh allZeroData; Place I_ 1 0 1000]
              (pieceAt (transformContributionsToGrid allZeroData)
                 1000 I_ 0 0 0)
              (mkBlock 0 0 1 100 0)) as (_ & _ & _ & H).
  - eapply (list_elem_of_lookup_2 _ 0%nat). vm_compute. reflexivity.
  - eapply (list_elem_of_lookup_2 _ 0%nat). vm_compute. reflexivity.
  - specialize (H ltac:(cbn; lia)).
    apply (inj Some).
    exact (eq_trans (eq_sym H) (eq_refl : _ = Some "#5BE3B6")).
Defined.

(** ** Events *)

Lemma uiStep_state (u : UIState) (e : Event) :
  ui_state (uiStep u e)
  = match eventOp u e with
    | Some op => step (ui_state u) op
    | None => ui_state u
    end.
Proof.
  destruct u as [[grid prev] sel dragged dragging].
  destruct e as [type|id|x y now|id|id|data];
    cbn [uiStep eventOp ui_state handlePaletteDragStart
         handlePlacedTetrominoDragStart selectedTetrominoType
         draggedTetrominoId isDraggingNew]; try done.
  unfold handleDrop.
    cbn [ui_state selectedTetrominoType draggedTetrominoId isDraggingNew
         contributionGrid placedTetrominos step].
    destruct dragging, sel as [type|];
      cbn [ui_state step contributionGrid placedTetrominos].
    + unfold dropNew. by destruct (handlePlacement _ _ _ _ _ _ _ _); cbn [ui_state].
    + destruct dragged as [id|]; [|done].
      cbn [step contributionGrid placedTetrominos]. unfold dropMove.
      destruct (list_find _ prev) as [[i t]|]; [|done].
      by destruct (handlePlacement _ _ _ _ _ _ _ _); cbn [ui_state].
    + destruct dragged as [id|]; [|done].
      cbn [step contributionGrid placedTetrominos]. unfold dropMove.
      destruct (list_find _ prev) as [[i t]|]; [|done].
      by destruct (handlePlacement _ _ _ _ _ _ _ _); cbn [ui_state].
    + destruct dragged as [id|]; [|done].
      cbn [step contributionGrid placedTetrominos]. unfold dropMove.
      destruct (list_find _ prev) as [[i t]|]; [|done].
      by destruct (handlePlacement _ _ _ _ _ _ _ _); cbn [ui_state].
Qed.

Lemma uiRun_state (events : list Event) (u : UIState) :
  ∃ ops, ui_state (uiRun u events) = run (ui_state u) ops
         ∧ (length ops <= length events)%nat.
Proof.
  revert u. induction events as [|e events IH]; intros u.
  - exists []. by split.
  - destruct (IH (uiStep u e)) as (ops & Hops & Hlen).
    cbn [uiRun fold_left]. fold (uiRun (uiStep u e) events).
    rewrite Hops, uiStep_state. destruct (eventOp u e) as [op|].
    + exists (op :: ops). split; [done|]. simpl. lia.
    + exists ops. split; [done|]. simpl. lia.
Qed.

(** X23: every event acts on the grid and the pieces as one placement
    operation or not at all: a drag start changes neither, a drop is a
    place when a palette drag is in progress, otherwise a move of the
    dragged piece; a drop with no drag in progress changes nothing at
    all; so every state reached through events is reached by a sequence
    of operations that is no longer. *)
Theorem events_are_operations (events : list Event) :
  (∀ (u : UIState) (e : Event),
     ui_state (uiStep u e)
     = match eventOp u e with
       | Some op => step (ui_state u) op
       | None => ui_state u
       end)
  ∧ (∀ (u : UIState) dropGridX dropGridY now,
       draggedTetrominoId u = None →
       isDraggingNew u = false ∨ selectedTetrominoType u = None →
       uiStep u (DropAt dropGridX dropGridY now) = u)
  ∧ ∃ ops, ui_state (uiRun initialUI events) = run initialState ops
           ∧ (length ops <= length events)%nat.
Proof.
  split_and!.
  - apply uiStep_state.
  - intros [s sel dragged dragging] x y now Hd Hs.
    cbn [draggedTetrominoId isDraggingNew selectedTetrominoType] in Hd, Hs.
    subst dragged. cbn [uiStep]. unfold handleDrop.
    cbn [isDraggingNew selectedTetrominoType draggedTetrominoId].
    destruct Hs as [->| ->]; [done|by destruct dragging].
  - apply (uiRun_state events initialUI).
Qed.

Lemma type_eqb_eq (a b : TetrominoType) : type_eqb a b = true ↔ a = b.
Proof. destruct a, b; simpl; split; (done || discriminate). Qed.

Lemma paletteDraggable_true (pieces : list Tetromino) (type : TetrominoType) :
  paletteDraggable pieces type = true ↔ type ∉ map p_type pieces.
Proof.
  unfold paletteDraggable. rewrite negb_true_iff, <- not_true_iff_false.
  apply not_iff_compat. rewrite existsb_exists. split.
  - intros (p & Hp%list_elem_of_In & Heq%type_eqb_eq).
    apply list_elem_of_fmap. by exists p.
  - intros (p & Heq & Hp)%list_elem_of_fmap. exists p.
    split; [by apply list_elem_of_In|]. by apply type_eqb_eq.
Qed.

Lemma move_keeps_types (prev : list Tetromino) (id : Z) (i : nat)
    (t moved : Tetromino) :
  NoDup (map p_id prev) →
  list_find (fun t => p_id t = id) prev = Some (i, t) →
  p_type moved = p_type t →
  map p_type (map (fun p => if p_id p =? id then moved else p) prev)
  = map p_type prev.
Proof.
  intros Hnd (Hi%list_elem_of_lookup_2 & Hid & _)%list_find_Some Hty.
  rewrite map_map. apply map_ext_Forall, Forall_forall. intros p Hp.
  destruct (Z.eqb_spec (p_id p) id) as [Heq|]; [|done].
  rewrite Hty. f_equal. apply (NoDup_ids_inj prev); congruence.
Qed.

Lemma rotate_keeps_types (grid : Grid) (id : Z) (prev : list Tetromino) :
  map p_type (handleRotate grid id prev) = map p_type prev.
Proof.
  destruct (list_find (fun t => p_id t = id) prev) as [[i t]|] eqn:Hfind.
  2:{ unfold handleRotate. by rewrite Hfind. }
  destruct (handleRotate_cases grid id prev i t Hfind) as [->|[d ->]];
    [done|].
  apply list_find_Some in Hfind as (Hi & _ & _).
  change (map p_type ?l) with (p_type <$> l).
  rewrite list_fmap_insert. apply list_insert_id.
  by rewrite list_lookup_fmap, Hi.
Qed.

Lemma refresh_keeps_types (loading : bool) (grid : Grid)
    (prev : list Tetromino) :
  map p_type (refreshTetrominos loading grid prev) = map p_type prev.
Proof.
  rewrite refreshTetrominos_eq. destruct (_ && _ && _); [|done].
  rewrite map_map. by apply map_ext.
Qed.

Lemma types_at_most_seven (types : list TetrominoType) :
  NoDup types → (length types <= 7)%nat.
Proof.
  intros Hnd.
  apply (submseteq_length types [I_; J_; L_; O_; S_; T_; Z_]).
  apply NoDup_submseteq; [done|].
  intros [] _; repeat first [by left | right].
Qed.

Lemma uiStep_invariant (u : UIState) (e : Event) :
  ui_invariant u →
  match eventOp u e with
  | Some op => op_fresh (ui_state u) op
  | None => True
  end →
  match e with
  | PaletteDragStart type =>
      paletteDraggable (placedTetrominos (ui_state u)) type = true
  | _ => True
  end →
  ui_invariant (uiStep u e).
Proof.
  intros (Hc & Hd & Hty & Hsel) Hfresh Hdrag.
  assert (consistent (ui_state (uiStep u e))
          ∧ distinct_and_apart (ui_state (uiStep u e))) as [Hc' Hd'].
  { rewrite uiStep_state. destruct (eventOp u e) as [op|]; [|done].
    split; [by apply step_consistent|by apply step_distinct_and_apart]. }
  split; [done|]. split; [done|]. clear Hc' Hd' Hfresh.
  destruct Hd as [Hnd _].
  destruct u as [[grid prev] sel dragged dragging].
  cbn [ui_state selectedTetrominoType draggedTetrominoId isDraggingNew
       placedTetrominos contributionGrid] in *.
  destruct e as [type|id|x y now|id|id|data];
    cbn [uiStep ui_state placedTetrominos contributionGrid].
  - cbn [handlePaletteDragStart ui_state selectedTetrominoType isDraggingNew
         placedTetrominos].
    split; [done|]. intros _ ty [= <-]. by apply paletteDraggable_true.
  - cbn [handlePlacedTetrominoDragStart ui_state selectedTetrominoType
         isDraggingNew placedTetrominos].
    split; [done|]. by intros [=].
  - unfold handleDrop.
    cbn [ui_state selectedTetrominoType draggedTetrominoId isDraggingNew
         placedTetrominos contributionGrid].
    destruct dragging, sel as [type|].
    + rewrite handlePlacement_eq. cbv zeta.
      destruct (checkCollision _ _ _); [done|].
      cbn [ui_state selectedTetrominoType isDraggingNew placedTetrominos].
      split; [|by intros _ ty [=]].
      rewrite map_app. apply NoDup_app. split_and!; [done| |apply NoDup_singleton].
      intros ty Hin Heq%list_elem_of_singleton. subst ty.
      by apply (Hsel eq_refl type).
    + destruct dragged as [id|]; [|done].
      destruct (list_find _ prev) as [[i t]|] eqn:Hfind; [|done].
      rewrite handlePlacement_eq. cbv zeta.
      destruct (checkCollision _ _ _); [done|].
      cbn [ui_state selectedTetrominoType isDraggingNew placedTetrominos].
      rewrite (move_keeps_types prev id i t) by done. split; [done|].
      by intros _ ty [=].
    + destruct dragged as [id|]; [|done].
      destruct (list_find _ prev) as [[i t]|] eqn:Hfind; [|done].
      rewrite handlePlacement_eq. cbv zeta.
      destruct (checkCollision _ _ _); [done|].
      cbn [ui_state selectedTetrominoType isDraggingNew placedTetrominos].
      rewrite (move_keeps_types prev id i t) by done. split; [done|].
      by intros [=].
    + destruct dragged as [id|]; [|done].
      destruct (list_find _ prev) as [[i t]|] eqn:Hfind; [|done].
      rewrite handlePlacement_eq. cbv zeta.
      destruct (checkCollision _ _ _); [done|].
      cbn [ui_state selectedTetrominoType isDraggingNew placedTetrominos].
      rewrite (move_keeps_types prev id i t) by done. split; [done|].
      by intros [=].
  - cbn [step selectedTetrominoType isDraggingNew placedTetrominos
         contributionGrid].
    by rewrite rotate_keeps_types.
  - cbn [step selectedTetrominoType isDraggingNew placedTetrominos
         contributionGrid].
    assert (sublist (map p_type (handleDelete id prev)) (map p_type prev))
      as Hsub by apply (fmap_sublist p_type), sublist_filter.
    split; [by eapply sublist_NoDup|].
    intros Hdr ty Hs Hin. apply (Hsel Hdr ty Hs).
    by eapply elem_of_sublist.
  - cbn [step selectedTetrominoType isDraggingNew placedTetrominos
         contributionGrid].
    by rewrite refresh_keeps_types.
Qed.

Lemma uiRun_invariant (events : list Event) (u : UIState) :
  ui_invariant u → events_fresh u events → drags_from_draggable u events →
  ui_invariant (uiRun u events).
Proof.
  revert u. induction events as [|e events IH]; intros u Hu Hf Hd; [done|].
  destruct Hf as [Hop Hf], Hd as [Hdrag Hd]. cbn [uiRun fold_left].
  apply IH; [|done..]. by apply uiStep_invariant.
Qed.

Lemma initialUI_invariant : ui_invariant initialUI.
Proof.
  split_and!.
  - apply initialState_consistent.
  - apply initialState_distinct_and_apart.
  - constructor.
  - by intros [=].
Qed.

(** X24: through any sequence of events from the initial screen in which
    every palette drag starts on an entry that is draggable at that moment
    (its type is not placed) and each clock value read for a new id
    differs from the ids of the pieces then placed, no two placed pieces
    have the same type, so at most seven pieces are placed; and the piece
    ids are pairwise distinct. *)
Theorem one_piece_per_type (events : list Event) :
  drags_from_draggable initialUI events →
  events_fresh initialUI events →
  let s := ui_state (uiRun initialUI events) in
  NoDup (map p_type (placedTetrominos s))
  ∧ (length (placedTetrominos s) <= 7)%nat
  ∧ NoDup (map p_id (placedTetrominos s)).
Proof.
  intros Hd Hf s.
  destruct (uiRun_invariant events initialUI initialUI_invariant Hf Hd)
    as (_ & [Hnd _] & Hty & _).
  fold s in Hnd, Hty. split_and!; [done| |done].
  rewrite <- (length_map p_type). by apply types_at_most_seven.
Qed.

Lemma sampleEvents_fresh : events_fresh initialUI sampleEvents.
Proof.
  unfold sampleEvents. cbn [events_fresh].
  repeat match goal with
    | |- context [uiStep ?u ?e] =>
        let v := eval vm_compute in (uiStep u e) in
        change (uiStep u e) with v
    end.
  cbn [eventOp isDraggingNew selectedTetrominoType draggedTetrominoId
       op_fresh ui_state placedTetrominos map p_id].
  split_and!; try exact Logic.I; try by_evaluation; done.
Qed.

Lemma sampleEvents_draggable : drags_from_draggable initialUI sampleEvents.
Proof.
  unfold sampleEvents. cbn [drags_from_draggable].
  repeat match goal with
    | |- context [uiStep ?u ?e] =>
        let v := eval vm_compute in (uiStep u e) in
        change (uiStep u e) with v
    end.
  split_and!; try exact Logic.I; vm_compute; reflexivity.
Qed.

Lemma one_piece_per_type_witness :
  NoDup (map p_type (placedTetrominos (ui_state (uiRun initialUI sampleEvents)))).
Proof.
  exact (proj1 (one_piece_per_type sampleEvents sampleEvents_draggable
                  sampleEvents_fresh)).
Defined.

(** The handler itself does not look at the placed pieces: a drag start
    that reaches the palette entry of a placed type selects that type
    again, and the drop that follows places a second piece of it. *)
Example second_piece_of_a_placed_type :
  map (fun p => (p_id p, p_type p, p_absolutePositions p))
    (placedTetrominos (ui_state (uiRun initialUI undraggableEvents)))
  = [(1000, T_, [(3, 2); (2, 3); (3, 3); (4, 3)]);
     (2000, T_, [(3, 4); (2, 5); (3, 5); (4, 5)])].
Proof. vm_compute. reflexivity. Qed.

(** ** Accepted drops *)

(** For requested drop cells of magnitude up to 2^52 the anchor of a
    placement computed in double arithmetic, centring included, is the
    anchor of the exact form. *)
Lemma placementAnchor_double_exact (type : TetrominoType)
    (rotation baseDropX baseDropY : Z) :
  right_angle rotation →
  Z.abs baseDropX <= 2 ^ 52 → Z.abs baseDropY <= 2 ^ 52 →
  placementAnchor_double type rotation baseDropX baseDropY
  = placementAnchor type rotation baseDropX baseDropY.
Proof.
  intros Hr Hx Hy. change (2 ^ 52) with 4503599627370496 in Hx, Hy.
  unfold placementAnchor_double, placementAnchor, js_sub.
  assert (0 <= Qfloor (fst (TETROMINO_PIVOTS type)) <= 1
          ∧ 0 <= Qfloor (snd (TETROMINO_PIVOTS type)) <= 1) as [Hpx Hpy]
    by (destruct type; vm_compute; repeat split; discriminate).
  rewrite !roundDouble_small
    by (change (2 ^ 53) with 9007199254740992; lia).
  apply getAdjustedDropPosition_double_exact; [done|..];
    change (2 ^ 53) with 9007199254740992; lia.
Qed.

(** X25: a drop from the palette on a cell with coordinates of magnitude
    up to 2^52 whose adjusted cells overlap no placed piece is accepted:
    the piece is appended, at rotation 0 and at the adjusted anchor (the
    one the double arithmetic of the source gives), with the clock value
    as id, and the total score grows by the scores of its four cells. *)
Theorem dropNew_accepted_when_free (grid : Grid) (prev : list Tetromino)
    (type : TetrominoType) (dropGridX dropGridY now : Z) :
  Z.abs dropGridX <= 2 ^ 52 → Z.abs dropGridY <= 2 ^ 52 →
  let a := placementAnchor type 0 dropGridX dropGridY in
  let cells := absolutePositionsOf type (fst a) (snd a) 0 in
  ¬ overlapsOther cells None prev →
  a = placementAnchor_double type 0 dropGridX dropGridY
  ∧ dropNew grid prev type dropGridX dropGridY now
    = prev ++ [mkTetromino now type (fst a) (snd a) 0 cells
                 (sumZ (map (cellScore grid) cells))
                 (map (blockAt grid) cells)]
  ∧ potentialScore (dropNew grid prev type dropGridX dropGridY now)
    = potentialScore prev + sumZ (map (cellScore grid) cells).
Proof.
  intros Hx Hy a cells Hfree.
  assert (dropNew grid prev type dropGridX dropGridY now
          = prev ++ [mkTetromino now type (fst a) (snd a) 0 cells
                       (sumZ (map (cellScore grid) cells))
                       (map (blockAt grid) cells)]) as Heq.
  { unfold dropNew. rewrite handlePlacement_eq. cbv zeta. fold a. fold cells.
    rewrite (proj2 (checkCollision_false cells None prev)); [done|].
    split; [|done]. apply adjusted_cells_in_grid. by left. }
  split_and!; [|done|].
  - subst a. symmetry. apply placementAnchor_double_exact; [by left|done..].
  - rewrite Heq, potentialScore_app.
    unfold potentialScore at 2. simpl. lia.
Qed.

Lemma dropNew_accepted_when_free_witness :
  potentialScore
    (dropNew (contributionGrid twoPieces) (placedTetrominos twoPieces)
       T_ 5 5 3000)
  = potentialScore (placedTetrominos twoPieces) + 400.
Proof.
  destruct (dropNew_accepted_when_free (contributionGrid twoPieces)
              (placedTetrominos twoPieces) T_ 5 5 3000) as (_ & _ & H).
  - vm_compute. discriminate.
  - vm_compute. discriminate.
  - apply (checkCollision_false _ None (placedTetrominos twoPieces)).
    vm_compute. reflexivity.
  - rewrite H. vm_compute. reflexivity.
Defined.

(** X26: a move of a placed piece to a cell with coordinates of magnitude
    up to 2^52 whose adjusted cells overlap no piece with another id is
    accepted: the pieces carrying the id are replaced by the piece of the
    same type and rotation at the adjusted anchor (the one the double
    arithmetic of the source gives), with the same id unless the id
    is 0. *)
Theorem dropMove_accepted_when_free (grid : Grid) (prev : list Tetromino)
    (id dropGridX dropGridY now : Z) (i : nat) (t : Tetromino) :
  list_find (fun t => p_id t = id) prev = Some (i, t) →
  right_angle (p_rotation t) →
  Z.abs dropGridX <= 2 ^ 52 → Z.abs dropGridY <= 2 ^ 52 →
  let a := placementAnchor (p_type t) (p_rotation t) dropGridX dropGridY in
  let cells := absolutePositionsOf (p_type t) (fst a) (snd a) (p_rotation t) in
  ¬ overlapsOther cells (Some id) prev →
  a = placementAnchor_double (p_type t) (p_rotation t) dropGridX dropGridY
  ∧ dropMove grid prev id dropGridX dropGridY now
    = map (fun p =>
             if p_id p =? id
             then mkTetromino (if id =? 0 then now else id) (p_type t)
                    (fst a) (snd a) (p_rotation t) cells
                    (sumZ (map (cellScore grid) cells))
                    (map (blockAt grid) cells)
             else p) prev.
Proof.
  intros Hfind Hr Hx Hy a cells Hfree. split.
  - subst a. symmetry. by apply placementAnchor_double_exact.
  - unfold dropMove. rewrite Hfind, handlePlacement_eq. cbv zeta.
    fold a. fold cells.
    rewrite (proj2 (checkCollision_false cells (Some id) prev)); [done|].
    split; [|done]. by apply adjusted_cells_in_grid.
Qed.

Lemma dropMove_accepted_when_free_witness :
  map p_absolutePositions
    (dropMove (contributionGrid twoPieces) (placedTetrominos twoPieces)
       2000 6 5 9000)
  = [[(0, 0); (1, 0); (2, 0); (3, 0)]; [(6, 5); (7, 5); (6, 6); (7, 6)]].
Proof.
  destruct (dropMove_accepted_when_free (contributionGrid twoPieces)
              (placedTetrominos twoPieces) 2000 6 5 9000 1
              (pieceAt (contributionGrid twoPieces) 2000 O_ 2 1 0))
    as [_ H].
  - vm_compute. reflexivity.
  - by left.
  - vm_compute. discriminate.
  - vm_compute. discriminate.
  - apply (checkCollision_false _ (Some 2000) (placedTetrominos twoPieces)).
    vm_compute. reflexivity.
  - rewrite H. vm_compute. reflexivity.
Defined.

Lemma pivot_cell_in_shape (type : TetrominoType) :
  (Qfloor (fst (TETROMINO_PIVOTS type)), Qfloor (snd (TETROMINO_PIVOTS type)))
  ∈ relativeShapeOf type 0.
Proof. destruct type; by_evaluation. Qed.

(** X27: when the centred anchor of a drop from the palette needs no
    adjustment, the piece that is placed covers the cell it was dropped
    on. *)
Theorem new_piece_covers_drop_cell (grid : Grid) (prev : list Tetromino)
    (type : TetrominoType) (dropGridX dropGridY now : Z) (p : Tetromino) :
  placementAnchor type 0 dropGridX dropGridY
  = (dropGridX - Qfloor (fst (TETROMINO_PIVOTS type)),
     dropGridY - Qfloor (snd (TETROMINO_PIVOTS type))) →
  handlePlacement grid prev type 0 dropGridX dropGridY None now = Some p →
  (dropGridX, dropGridY) ∈ p_absolutePositions p.
Proof.
  intros Ha. rewrite handlePlacement_eq, Ha. cbv zeta. cbn [fst snd].
  destruct (checkCollision _ _ _); [done|]. intros [= <-].
  cbn [pieceAt p_absolutePositions]. unfold absolutePositionsOf.
  apply list_elem_of_fmap.
  exists (Qfloor (fst (TETROMINO_PIVOTS type)),
          Qfloor (snd (TETROMINO_PIVOTS type))).
  split; [f_equal; lia|apply pivot_cell_in_shape].
Qed.

Lemma new_piece_covers_drop_cell_witness :
  (4, 3) ∈ [(4, 2); (3, 3); (4, 3); (5, 3)].
Proof.
  apply (new_piece_covers_drop_cell [] [] T_ 4 3 1000
           (pieceAt [] 1000 T_ 3 2 0)).
  - vm_compute. reflexivity.
  - vm_compute. reflexivity.
Defined.

(** ** Uniform grids *)

Lemma levelAt_uniform (r : Contribution) (c : Point) :
  in_grid c →
  levelAt (transformContributionsToGrid (replicate 56 r)) (fst c) (snd c)
  = getContributionLevel (contrib_count r).
Proof.
  destruct c as [x y]. unfold in_grid, GRID_WIDTH, GRID_HEIGHT.
  cbn [fst snd]. intros [Hx Hy].
  pose proof (loaded_cellAt (replicate 56 r) (7 * x + y) ltac:(lia)) as Hcell.
  assert ((7 * x + y) / 7 = x) as Hdiv
    by (symmetry; apply (Z.div_unique _ _ _ y); lia).
  assert ((7 * x + y) `mod` 7 = y) as Hmod
    by (symmetry; apply (Z.mod_unique _ _ x); lia).
  rewrite Hdiv, Hmod in Hcell.
  rewrite levelAt_cellAt, Hcell;
    [|done..|rewrite length_transformContributionsToGrid; lia].
  unfold loadedCell. by rewrite lookup_replicate_2 by lia.
Qed.

Lemma uniform_cells_score (r : Contribution) (cells : list Point) :
  Forall in_grid cells →
  sumZ (map (cellScore (transformContributionsToGrid (replicate 56 r))) cells)
  = 100 * getContributionLevel (contrib_count r) * Z.of_nat (length cells).
Proof.
  intros Hin. induction Hin as [|c cells Hc _ IH]; [simpl; lia|].
  cbn [map sumZ foldr length].
  fold (sumZ (map (cellScore (transformContributionsToGrid (replicate 56 r)))
                cells)).
  rewrite IH, Nat2Z.inj_succ. unfold cellScore.
  rewrite (levelAt_uniform r c Hc).
  unfold getScoreFromContributionLevel. lia.
Qed.

(** X28: after a refresh whose 56 records all have the same count, every
    placed piece scores 400 times the level of that count, wherever it
    lies and however it is turned, and the total is that score times the
    number of pieces. *)
Theorem uniform_grid_scores (ops : list Op) (r : Contribution) :
  let s := step (run initialState ops) (Refresh (replicate 56 r)) in
  Forall (fun p => p_scorePotential p
                   = 400 * getContributionLevel (contrib_count r))
    (placedTetrominos s)
  ∧ potentialScore (placedTetrominos s)
    = 400 * getContributionLevel (contrib_count r)
      * Z.of_nat (length (placedTetrominos s)).
Proof.
  intros s.
  pose proof (step_consistent _ (Refresh (replicate 56 r))
                (run_consistent ops _ initialState_consistent)) as Hc.
  fold s in Hc. unfold consistent in Hc.
  assert (contributionGrid s = transformContributionsToGrid (replicate 56 r))
    as Hgrid by done.
  assert (Forall (fun p => p_scorePotential p
                           = 400 * getContributionLevel (contrib_count r))
            (placedTetrominos s)) as Hall.
  { eapply Forall_impl; [exact Hc|]. intros p Hp.
    destruct (piece_ok_score _ _ Hp) as (Ha & -> & _).
    destruct Hp as (_ & _ & Hin). rewrite Hgrid.
    rewrite (uniform_cells_score r _ Hin), Ha, length_absolutePositionsOf.
    lia. }
  split; [done|]. rewrite potentialScore_sum.
  clear Hc Hgrid. revert Hall. generalize (placedTetrominos s).
  intros l Hall. induction Hall as [|p l Hp _ IH]; [simpl; lia|].
  cbn [map sumZ foldr length]. fold (sumZ (map p_scorePotential l)).
  rewrite Nat2Z.inj_succ. lia.
Qed.
